(** * Greedy hourly water allocation (StudentSolution.cpp)

    A shallow embedding of [solveProblems] and of its helpers, and the
    properties of the allocation that the specification states.

    Conventions of the embedding.
    - A C++ [double] is an exact rational ([Q]): the arithmetic of the
      source is read over the rationals, rounding is outside the model.
      Comparisons are the decidable ones of [Q]; equalities between
      quantities are stated up to [==].  Module [Binary64] below embeds
      the hour once more with the doubles as binary64 numbers; it serves
      where rounding decides a property.
    - A [Region*], [Canal*] or [WaterSource*] is an index into the store of
      the objects of its class; the manager's region and canal vectors are
      these stores, enumerated in index order.  A pointer outside its
      store stands for a dangling pointer; the model skips it, as it skips
      a null water source.
    - [hour] and [loops] are C++ [int]s.  Both stay between 0 and a bound
      that is itself an [int] ([SimulationMax], [kMaxLoops]), so no
      operation of the program on them can wrap; they are plain [Z].
    - Every execution of lines 114-118 (one transfer) is recorded in a
      log, which is ghost state: no decision of the program reads it. *)

From Stdlib Require Import QArith Qminmax Lqa.
From Stdlib Require Floats.PrimFloat.
From stdpp Require Import base option list sorting gmap.

Open Scope Q_scope.

(** ** Constants (lines 27-29) *)

Definition kEpsilon : Q := 1 # 1000.
Definition kSafetyMargin : Q := 1 # 10.
Definition kMaxLoops : Z := 1000.

(** [a <= b] and [a > b] on doubles. *)
Definition Qleb (a b : Q) : bool := Qle_bool a b.
Definition Qgtb (a b : Q) : bool := negb (Qle_bool a b).
Definition Qltb (a b : Q) : bool := negb (Qle_bool b a).

(** ** Data model (acequia_manager.h is not part of the sources; the
    fields are the ones [solveProblems] reads and writes) *)

Record Region := mkRegion {
  waterLevel : Q;
  waterNeed : Q;
  waterCapacity : Q
}.

Record WaterSource := mkWaterSource {
  sourceLevel : Q  (* WaterSource::waterLevel *)
}.

Record Canal := mkCanal {
  sourceRegion : nat;
  destinationRegion : nat;
  waterSource : option nat;  (* None: the null pointer *)
  isOpen : bool;
  flowRate : Q
}.

Record World := mkWorld {
  regions : list Region;
  sources : list WaterSource;
  canals : list Canal
}.

Record AcequiaManager := mkManager {
  world : World;
  hour : Z;
  SimulationMax : Z
}.

(** Modelled from the spec: [Region::updateWaterLevel] and
    [WaterSource::updateWaterLevel] are declared in acequia_manager.h,
    which is missing; the spec says a transfer decreases, respectively
    increases, the level by the amount, so the method adds its argument to
    the level and touches nothing else. *)
Definition updateWaterLevel (d : Q) (r : Region) : Region :=
  mkRegion (waterLevel r + d) (waterNeed r) (waterCapacity r).

Definition updateSourceLevel (d : Q) (s : WaterSource) : WaterSource :=
  mkWaterSource (sourceLevel s + d).

(** Modelled from the spec: [Canal::toggleOpen] and [Canal::setFlowRate]
    are declared in the missing header; the spec has them set the open flag
    and the flow rate of the canal. *)
Definition toggleOpen (b : bool) (c : Canal) : Canal :=
  mkCanal (sourceRegion c) (destinationRegion c) (waterSource c) b (flowRate c).

Definition setFlowRate (q : Q) (c : Canal) : Canal :=
  mkCanal (sourceRegion c) (destinationRegion c) (waterSource c) (isOpen c) q.

(** Modelled from the spec: [AcequiaManager::nexthour] is declared in the
    missing header; the spec has the driver advance the hour counter. *)
Definition nexthour (m : AcequiaManager) : AcequiaManager :=
  mkManager (world m) (hour m + 1)%Z (SimulationMax m).

(** ** Derived quantities (lines 32-41) *)

(** [std::max(a, b)] is [b] when [a < b] and [a] otherwise: [Qmax a b]. *)
Definition safeSurplus (r : Region) : Q :=
  let extra := waterLevel r - waterNeed r in
  let buffer := kSafetyMargin * waterCapacity r in
  Qmax 0 (extra - buffer).

Definition getDeficit (r : Region) : Q :=
  Qmax 0 (waterNeed r - waterLevel r).

(** ** The queue of needs (lines 44-49, 73) *)

Record Need := mkNeed {
  region : nat;
  amount : Q
}.

(** [operator<] of [Need]. *)
Definition need_lt (a b : Need) : bool := Qltb (amount a) (amount b).

(** [std::priority_queue<Need>]: the standard leaves open which of several
    greatest elements [top] returns.  The model keeps the entries in
    insertion order and takes the earliest-inserted greatest one. *)
Definition pq_push (n : Need) (q : list Need) : list Need := q ++ [n].

Fixpoint pq_take (best : Need) (q : list Need) : Need * list Need :=
  match q with
  | [] => (best, [])
  | n :: q' =>
      if need_lt best n
      then let '(b, r) := pq_take n q' in (b, best :: r)
      else let '(b, r) := pq_take best q' in (b, n :: r)
  end.

(** [top] followed by [pop]; [None] when the queue is empty. *)
Definition pq_pop (q : list Need) : option (Need * list Need) :=
  match q with
  | [] => None
  | n :: q' => Some (pq_take n q')
  end.

(** ** The canal index (lines 57-60) *)

(** [canalMap[c->sourceRegion][c->destinationRegion].push_back(c)] for the
    canal at index [i]; [operator[]] creates the empty entries it misses. *)
Definition canalMap_add (cm : gmap nat (gmap nat (list nat))) (i : nat) (c : Canal)
  : gmap nat (gmap nat (list nat)) :=
  let inner := default ∅ (cm !! sourceRegion c) in
  let bucket := default [] (inner !! destinationRegion c) in
  <[sourceRegion c := <[destinationRegion c := bucket ++ [i]]> inner]> cm.

Fixpoint canalMap_from (i : nat) (cs : list Canal) (cm : gmap nat (gmap nat (list nat)))
  : gmap nat (gmap nat (list nat)) :=
  match cs with
  | [] => cm
  | c :: cs' => canalMap_from (S i) cs' (canalMap_add cm i c)
  end.

Definition buildCanalMap (cs : list Canal) : gmap nat (gmap nat (list nat)) :=
  canalMap_from 0 cs ∅.

(** [canalMap[src].find(target)] (line 101): [None] is [end()]. *)
Definition findBucket (cm : gmap nat (gmap nat (list nat))) (src target : nat)
  : option (list nat) :=
  default ∅ (cm !! src) !! target.

(** ** One transfer (lines 105-121) *)

(** The ghost record of one execution of lines 114-118. *)
Record Transfer := mkTransfer {
  t_canal : nat;
  t_src : nat;
  t_target : nat;
  t_source : nat;
  t_amount : Q;
  t_before : World;
  t_after : World
}.

(** The variables that the scan of the donors reads and writes. *)
Record Scan := mkScan {
  sc_world : World;
  sc_deficit : Q;
  sc_did : bool;
  sc_log : list Transfer
}.

(** Lines 114-118, in the order of the source. *)
Definition execTransfer (canal src target ws : nat) (xfer : Q) (w : World) : World :=
  let cs1 := alter (toggleOpen true) canal (canals w) in
  let cs2 := alter (setFlowRate (xfer / 3600)) canal cs1 in
  let ss := alter (updateSourceLevel (- xfer)) ws (sources w) in
  let rs1 := alter (updateWaterLevel (- xfer)) src (regions w) in
  let rs2 := alter (updateWaterLevel xfer) target rs1 in
  mkWorld rs2 ss cs2.

(** [std::min({a, b, c, d})]: the leftmost least element. *)
Definition min4 (a b c d : Q) : Q := Qmin (Qmin (Qmin a b) c) d.

(** The body of the canal loop up to line 121: [None] is [continue],
    [Some] carries the state after the transfer. *)
Definition attempt (target src : nat) (avail : Q) (canal : nat) (s : Scan) : option Scan :=
  let w := sc_world s in
  c ← canals w !! canal;
  wsi ← waterSource c;
  ws ← sources w !! wsi;
  if Qleb (sourceLevel ws) kEpsilon then None else
  t ← regions w !! target;
  let space := waterCapacity t - waterLevel t in
  let xfer := min4 (sc_deficit s) avail (sourceLevel ws) space in
  if Qleb xfer kEpsilon then None else
  let w' := execTransfer canal src target wsi xfer w in
  Some (mkScan w' (sc_deficit s - xfer) true
          (sc_log s ++ [mkTransfer canal src target wsi xfer w w'])).

(** The loop over the canals of one bucket (lines 104-123). *)
Fixpoint canalLoop (target src : nat) (avail : Q) (bucket : list nat) (s : Scan) : Scan :=
  match bucket with
  | [] => s
  | canal :: rest =>
      match attempt target src avail canal s with
      | None => canalLoop target src avail rest s
      | Some s' =>
          if Qleb (sc_deficit s') kEpsilon then s'
          else canalLoop target src avail rest s'
      end
  end.

(** The loop over the donors (lines 96-125). *)
Fixpoint donorLoop (cm : gmap nat (gmap nat (list nat))) (target : nat)
    (donors : list nat) (s : Scan) : Scan :=
  match donors with
  | [] => s
  | src :: rest =>
      match regions (sc_world s) !! src with
      | None => donorLoop cm target rest s
      | Some r =>
          let avail := safeSurplus r in
          if Qleb avail kEpsilon then donorLoop cm target rest s
          else
            match findBucket cm src target with
            | None => donorLoop cm target rest s
            | Some bucket =>
                let s' := canalLoop target src avail bucket s in
                if Qleb (sc_deficit s') kEpsilon then s'
                else donorLoop cm target rest s'
            end
      end
  end.

(** ** One hour (lines 64-131) *)

Definition resetCanal (c : Canal) : Canal :=
  setFlowRate 0 (if isOpen c then toggleOpen false c else c).

Definition resetCanals (w : World) : World :=
  mkWorld (regions w) (sources w) (resetCanal <$> canals w).

(** Lines 75-83, over the regions from index [i] on. *)
Fixpoint partitionFrom (i : nat) (rs : list Region) (needs : list Need) (donors : list nat)
  : list Need * list nat :=
  match rs with
  | [] => (needs, donors)
  | r :: rs' =>
      let d := getDeficit r in
      if Qgtb d kEpsilon then partitionFrom (S i) rs' (pq_push (mkNeed i d) needs) donors
      else
        let s := safeSurplus r in
        if Qgtb s kEpsilon then partitionFrom (S i) rs' needs (donors ++ [i])
        else partitionFrom (S i) rs' needs donors
  end.

Definition partitionRegions (rs : list Region) : list Need * list nat :=
  partitionFrom 0 rs [] [].

(** The variables of one hour. *)
Record Hour := mkHour {
  h_world : World;
  h_needs : list Need;
  h_didTransfer : bool;
  h_loops : Z;
  h_log : list Transfer
}.

(** One evaluation of the guard of line 89 and, when it holds, one
    execution of the body (lines 90-130); [None] when the guard fails.
    [loops] is dead after the loop, so its increment on a failing
    comparison is not kept. *)
Definition greedyIter (cm : gmap nat (gmap nat (list nat))) (donors : list nat) (h : Hour)
  : option Hour :=
  match pq_pop (h_needs h) with
  | None => None
  | Some (curr, rest) =>
      match donors with
      | [] => None
      | _ :: _ =>
          if (h_loops h <? kMaxLoops)%Z then
            let s := donorLoop cm (region curr) donors
                       (mkScan (h_world h) (amount curr) (h_didTransfer h) (h_log h)) in
            let needs' :=
              if Qgtb (sc_deficit s) kEpsilon
              then pq_push (mkNeed (region curr) (sc_deficit s)) rest
              else rest in
            Some (mkHour (sc_world s) needs' (sc_did s) (h_loops h + 1)%Z (sc_log s))
          else None
      end
  end.

(** The greedy loop: [greedyIter] repeated until the guard fails, for at
    most [fuel] iterations. *)
Fixpoint greedyLoop (fuel : nat) (cm : gmap nat (gmap nat (list nat))) (donors : list nat)
    (h : Hour) : Hour :=
  match fuel with
  | O => h
  | S fuel' =>
      match greedyIter cm donors h with
      | None => h
      | Some h' => greedyLoop fuel' cm donors h'
      end
  end.

(** Lines 66-131: reset, partition, greedy loop.  The loop is given
    [kMaxLoops] iterations of fuel, which it never exhausts before its
    guard fails ([greedyLoop_exits] below). *)
Definition hourStart (w : World) : Hour :=
  mkHour (resetCanals w) (fst (partitionRegions (regions w))) false 0 [].

Definition hourDonors (w : World) : list nat :=
  snd (partitionRegions (regions w)).

(** The regions of the entries queued at the start of the hour. *)
Definition hourNeedy (w : World) : list nat :=
  region <$> fst (partitionRegions (regions w)).

Definition runHour (cm : gmap nat (gmap nat (list nat))) (w : World) : Hour :=
  greedyLoop (Z.to_nat kMaxLoops) cm (hourDonors w) (hourStart w).

(** ** The driver loop (lines 52-138) *)

Section Solve.

(** [AcequiaManager::solved] is declared in the missing header: any
    side-effect-free predicate of the manager. *)
Variable solved : AcequiaManager → bool.

(** The outcome of one evaluation of the guard of line 63 and of the
    body that follows it. *)
Inductive Outcome :=
| Exit                                            (* the guard fails *)
| Stop (m : AcequiaManager) (l : list Transfer)     (* line 134: break *)
| Next (m : AcequiaManager) (l : list Transfer).    (* line 136 *)

Definition solveIter (maxHours : Z) (cm : gmap nat (gmap nat (list nat)))
    (m : AcequiaManager) : Outcome :=
  if negb (solved m) && (hour m <? maxHours)%Z then
    let h := runHour cm (world m) in
    let m' := mkManager (h_world h) (hour m) (SimulationMax m) in
    if negb (h_didTransfer h) then Stop m' (h_log h)
    else Next (nexthour m') (h_log h)
  else Exit.

(** The loop of line 63; the second component is the ghost history, the
    log of every hour that was run, in order. *)
Fixpoint solveLoop (fuel : nat) (maxHours : Z) (cm : gmap nat (gmap nat (list nat)))
    (m : AcequiaManager) (hist : list (list Transfer))
  : AcequiaManager * list (list Transfer) :=
  match fuel with
  | O => (m, hist)
  | S fuel' =>
      match solveIter maxHours cm m with
      | Exit => (m, hist)
      | Stop m' l => (m', hist ++ [l])
      | Next m' l => solveLoop fuel' maxHours cm m' (hist ++ [l])
      end
  end.

(** [solveProblems].  Every hour that is followed by another one
    advances [hour], which stays below [maxHours]: [maxHours - hour]
    iterations of fuel are never exhausted before the loop exits
    ([solveLoop_exits] below). *)
Definition solveRun (m : AcequiaManager) : AcequiaManager * list (list Transfer) :=
  let maxHours := SimulationMax m in
  let cm := buildCanalMap (canals (world m)) in
  solveLoop (Z.to_nat (maxHours - hour m)) maxHours cm m [].

Definition solveProblems (m : AcequiaManager) : AcequiaManager :=
  fst (solveRun m).

End Solve.


(** ** Notions used by the statements *)

(** The number of executions of the body of the greedy loop, given [fuel]
    evaluations of its guard. *)
Fixpoint greedyIterations (fuel : nat) (cm : gmap nat (gmap nat (list nat)))
    (donors : list nat) (h : Hour) : nat :=
  match fuel with
  | O => O
  | S fuel' =>
      match greedyIter cm donors h with
      | None => O
      | Some h' => S (greedyIterations fuel' cm donors h')
      end
  end.

(** What the allocation is to leave alone: the need and the capacity of a
    region; the two regions and the water source of a canal. *)
Definition regionFixed (r : Region) : Q * Q :=
  (waterNeed r, waterCapacity r).

Definition canalFixed (c : Canal) : nat * nat * option nat :=
  (sourceRegion c, destinationRegion c, waterSource c).

Definition sameFrame (w w' : World) : Prop :=
  regionFixed <$> regions w' = regionFixed <$> regions w ∧
  canalFixed <$> canals w' = canalFixed <$> canals w ∧
  length (sources w') = length (sources w).

(** Every water source holds a non-negative amount. *)
Definition sourcesNonneg (w : World) : Prop :=
  Forall (λ s, 0 <= sourceLevel s) (sources w).


(** ** Scenarios *)

(** Region A (level 20, need 10, capacity 30), region B (level 2, need 10,
    capacity 20), one canal from A to B fed by a water source at 100. *)
Definition simpleWorld : World :=
  mkWorld [mkRegion 20 10 30; mkRegion 2 10 20]
          [mkWaterSource 100]
          [mkCanal 0 1 (Some 0%nat) false 0].

(** A region with deficit 5, a region with deficit 10, and a donor with
    safe surplus 8 that has a canal to each of them. *)
Definition priorityWorld : World :=
  mkWorld [mkRegion 0 5 20; mkRegion 0 10 20; mkRegion 10 0 20]
          [mkWaterSource 100]
          [mkCanal 2 0 (Some 0%nat) false 0; mkCanal 2 1 (Some 0%nat) false 0].

(** Two regions with the same deficit 5, and a donor. *)
Definition tieWorld : World :=
  mkWorld [mkRegion 0 5 20; mkRegion 0 5 20; mkRegion 10 0 20]
          [mkWaterSource 100]
          [mkCanal 2 0 (Some 0%nat) false 0; mkCanal 2 1 (Some 0%nat) false 0].

(** A donor (level 20, need 0, capacity 20: safe surplus 18) and a region
    with deficit 100, joined by two canals fed by one water source. *)
Definition parallelWorld : World :=
  mkWorld [mkRegion 20 0 20; mkRegion 0 100 100]
          [mkWaterSource 100]
          [mkCanal 0 1 (Some 0%nat) false 0; mkCanal 0 1 (Some 0%nat) false 0].

(** A region with deficit 8 and a region with neither deficit nor safe
    surplus: there is no donor. *)
Definition stuckWorld : World :=
  mkWorld [mkRegion 2 10 20; mkRegion 10 10 20] [mkWaterSource 100]
          [mkCanal 1 0 (Some 0%nat) false 0].

(** Levels within bounds: what the external setup is to supply. *)
Definition regionsWithinBounds (w : World) : Prop :=
  Forall (λ r, 0 <= waterLevel r ∧ waterLevel r <= waterCapacity r) (regions w).

(** ** Notions used by the proof that, in exact arithmetic, a canal
    carries one transfer an hour *)

(** The canals from index [i] on that join [src] to [target]. *)
Fixpoint bucketOf (i : nat) (cs : list Canal) (src target : nat) : list nat :=
  match cs with
  | [] => []
  | c :: cs' =>
      if decide (sourceRegion c = src ∧ destinationRegion c = target)
      then i :: bucketOf (S i) cs' src target
      else bucketOf (S i) cs' src target
  end.

(** Every bucket of the index lists canals of the world once, each under
    its own two regions. *)
Definition goodMap (cm : gmap nat (gmap nat (list nat))) (w : World) : Prop :=
  ∀ src target bucket,
    findBucket cm src target = Some bucket →
    NoDup bucket ∧
    ∀ ci, ci ∈ bucket →
      ∃ c, canals w !! ci = Some c ∧ sourceRegion c = src ∧ destinationRegion c = target.

(** A donor with no safe surplus above the threshold, a water source with
    no level above it, a target with no room above it. *)
Definition surplusLow (w : World) (i : nat) : Prop :=
  ∀ r, regions w !! i = Some r → safeSurplus r <= kEpsilon.

Definition sourceLow (w : World) (j : nat) : Prop :=
  ∀ s, sources w !! j = Some s → sourceLevel s <= kEpsilon.

Definition spaceLow (w : World) (i : nat) : Prop :=
  ∀ r, regions w !! i = Some r → waterCapacity r - waterLevel r <= kEpsilon.

(** A canal on which no attempt can succeed, whatever surplus is assumed
    for its donor. *)
Definition hardDead (w : World) (c : Canal) : Prop :=
  (∃ j, waterSource c = Some j ∧ sourceLow w j) ∨ spaceLow w (destinationRegion c).

(** A canal of the hour started in [w0] that cannot carry a transfer in
    [w] while the regions of [pending] are the queued ones. *)
Definition deadCanal (w0 w : World) (pending : list nat) (ci : nat) : Prop :=
  ∃ c, canals w0 !! ci = Some c ∧
       sourceRegion c ∈ hourDonors w0 ∧
       destinationRegion c ∈ hourNeedy w0 ∧
       (destinationRegion c ∉ pending ∨ surplusLow w (sourceRegion c) ∨ hardDead w c).

Definition deadAll (w0 w : World) (pending : list nat) (l : list Transfer) : Prop :=
  ∀ ci, ci ∈ t_canal <$> l → deadCanal w0 w pending ci.

(** How the world moves during the hour started in [w0]: donors only
    lose water, queued regions only gain, water sources only lose. *)
Definition evolves (w0 w w' : World) : Prop :=
  sameFrame w w' ∧
  (∀ i r r', i ∈ hourDonors w0 → regions w !! i = Some r → regions w' !! i = Some r' →
             waterLevel r' <= waterLevel r) ∧
  (∀ i r r', i ∈ hourNeedy w0 → regions w !! i = Some r → regions w' !! i = Some r' →
             waterLevel r <= waterLevel r') ∧
  (∀ j s s', sources w !! j = Some s → sources w' !! j = Some s' →
             sourceLevel s' <= sourceLevel s).

(** The state of a scan for [target], the other queued regions being
    [others]: the canals used so far are distinct and dead, counting
    [target] as queued unless its deficit is within the threshold. *)
Definition scanPost (w0 : World) (target : nat) (others : list nat) (s : Scan) : Prop :=
  sameFrame w0 (sc_world s) ∧
  NoDup (t_canal <$> sc_log s) ∧
  (deadAll w0 (sc_world s) (target :: others) (sc_log s) ∨
   (sc_deficit s <= kEpsilon ∧ deadAll w0 (sc_world s) others (sc_log s))).

(** The invariant of the greedy loop of the hour started in [w0]. *)
Definition hourInv (w0 : World) (h : Hour) : Prop :=
  sameFrame w0 (h_world h) ∧
  NoDup (t_canal <$> h_log h) ∧
  NoDup (region <$> h_needs h) ∧
  region <$> h_needs h ⊆ hourNeedy w0 ∧
  deadAll w0 (h_world h) (region <$> h_needs h) (h_log h).

(** ** Notions used by the further properties *)

(** A transfer above the threshold that takes no more than the water
    source holds and no more than the target has room for. *)
Definition boundedTransfer (e : Transfer) : Prop :=
  kEpsilon < t_amount e ∧
  ∃ s t,
    sources (t_before e) !! t_source e = Some s ∧
    regions (t_before e) !! t_target e = Some t ∧
    kEpsilon < sourceLevel s ∧
    t_amount e <= sourceLevel s ∧
    t_amount e <= waterCapacity t - waterLevel t.

(** A transfer along a canal of [w] that joins its donor to its target and
    draws from the recorded water source, the donor being a donor of the
    hour started in [w] and the target a region queued in it. *)
Definition alongCanal (w : World) (e : Transfer) : Prop :=
  ∃ c, canals w !! t_canal e = Some c ∧
       sourceRegion c = t_src e ∧
       destinationRegion c = t_target e ∧
       waterSource c = Some (t_source e) ∧
       t_src e ∈ hourDonors w ∧
       t_target e ∈ hourNeedy w.



(** An hour that executed a transfer. *)
Definition productive (l : list Transfer) : bool :=
  match l with [] => false | _ :: _ => true end.

(** ** The same code over binary64

    The definitions above read the doubles of the source as exact
    rationals.  [Binary64] embeds lines 27-131 once more with the doubles
    as IEEE 754 binary64 numbers (primitive floats: every operation
    rounds to nearest, ties to even, as the C++ operators do), for the
    properties that rounding decides.  Definition by definition it is the
    text of the exact embedding with the operations on [Q] replaced by
    those on [float]. *)

Module Binary64.

Import PrimFloat.

(** Lines 27-29: the doubles nearest to 1e-3 and 0.10. *)
Definition kEpsilon : float := 0x1.0624dd2f1a9fcp-10%float.
Definition kSafetyMargin : float := 0x1.999999999999ap-4%float.
Definition kMaxLoops : Z := 1000.

(** [std::max(a, b)] is [(a < b) ? b : a]; [std::min(a, b)] is
    [(b < a) ? b : a]. *)
Definition fmax (a b : float) : float := if PrimFloat.ltb a b then b else a.
Definition fmin (a b : float) : float := if PrimFloat.ltb b a then b else a.

Record Region := mkRegion {
  waterLevel : float;
  waterNeed : float;
  waterCapacity : float
}.

Record WaterSource := mkWaterSource {
  sourceLevel : float  (* WaterSource::waterLevel *)
}.

Record Canal := mkCanal {
  sourceRegion : nat;
  destinationRegion : nat;
  waterSource : option nat;  (* None: the null pointer *)
  isOpen : bool;
  flowRate : float
}.

Record World := mkWorld {
  regions : list Region;
  sources : list WaterSource;
  canals : list Canal
}.

(** Modelled from the spec: [Region::updateWaterLevel] and
    [WaterSource::updateWaterLevel] are declared in acequia_manager.h,
    which is missing; the spec has them change the level by the amount:
    here [waterLevel += change] on doubles. *)
Definition updateWaterLevel (d : float) (r : Region) : Region :=
  mkRegion (PrimFloat.add (waterLevel r) d) (waterNeed r) (waterCapacity r).

Definition updateSourceLevel (d : float) (s : WaterSource) : WaterSource :=
  mkWaterSource (PrimFloat.add (sourceLevel s) d).

(** Modelled from the spec: [Canal::toggleOpen] and [Canal::setFlowRate]
    are declared in the missing header; the spec has them set the open flag
    and the flow rate of the canal. *)
Definition toggleOpen (b : bool) (c : Canal) : Canal :=
  mkCanal (sourceRegion c) (destinationRegion c) (waterSource c) b (flowRate c).

Definition setFlowRate (q : float) (c : Canal) : Canal :=
  mkCanal (sourceRegion c) (destinationRegion c) (waterSource c) (isOpen c) q.

(** Lines 32-41. *)
Definition safeSurplus (r : Region) : float :=
  let extra := PrimFloat.sub (waterLevel r) (waterNeed r) in
  let buffer := PrimFloat.mul kSafetyMargin (waterCapacity r) in
  fmax 0%float (PrimFloat.sub extra buffer).

Definition getDeficit (r : Region) : float :=
  fmax 0%float (PrimFloat.sub (waterNeed r) (waterLevel r)).

(** Lines 44-49 and the queue of line 73, as in the exact embedding. *)
Record Need := mkNeed {
  region : nat;
  amount : float
}.

Definition need_lt (a b : Need) : bool := PrimFloat.ltb (amount a) (amount b).

Definition pq_push (n : Need) (q : list Need) : list Need := q ++ [n].

Fixpoint pq_take (best : Need) (q : list Need) : Need * list Need :=
  match q with
  | [] => (best, [])
  | n :: q' =>
      if need_lt best n
      then let '(b, r) := pq_take n q' in (b, best :: r)
      else let '(b, r) := pq_take best q' in (b, n :: r)
  end.

Definition pq_pop (q : list Need) : option (Need * list Need) :=
  match q with
  | [] => None
  | n :: q' => Some (pq_take n q')
  end.

(** Lines 57-60. *)
Definition canalMap_add (cm : gmap nat (gmap nat (list nat))) (i : nat) (c : Canal)
  : gmap nat (gmap nat (list nat)) :=
  let inner := default ∅ (cm !! sourceRegion c) in
  let bucket := default [] (inner !! destinationRegion c) in
  <[sourceRegion c := <[destinationRegion c := bucket ++ [i]]> inner]> cm.

Fixpoint canalMap_from (i : nat) (cs : list Canal) (cm : gmap nat (gmap nat (list nat)))
  : gmap nat (gmap nat (list nat)) :=
  match cs with
  | [] => cm
  | c :: cs' => canalMap_from (S i) cs' (canalMap_add cm i c)
  end.

Definition buildCanalMap (cs : list Canal) : gmap nat (gmap nat (list nat)) :=
  canalMap_from 0 cs ∅.

(** The lookup of line 101 is [findBucket] above: it involves no double. *)

(** The ghost record of one execution of lines 114-118. *)
Record Transfer := mkTransfer {
  t_canal : nat;
  t_src : nat;
  t_target : nat;
  t_source : nat;
  t_amount : float;
  t_before : World;
  t_after : World
}.

Record Scan := mkScan {
  sc_world : World;
  sc_deficit : float;
  sc_did : bool;
  sc_log : list Transfer
}.

(** Lines 114-118, in the order of the source. *)
Definition execTransfer (canal src target ws : nat) (xfer : float) (w : World) : World :=
  let cs1 := alter (toggleOpen true) canal (canals w) in
  let cs2 := alter (setFlowRate (PrimFloat.div xfer 3600%float)) canal cs1 in
  let ss := alter (updateSourceLevel (PrimFloat.opp xfer)) ws (sources w) in
  let rs1 := alter (updateWaterLevel (PrimFloat.opp xfer)) src (regions w) in
  let rs2 := alter (updateWaterLevel xfer) target rs1 in
  mkWorld rs2 ss cs2.

(** [std::min({a, b, c, d})]: the leftmost least element. *)
Definition min4 (a b c d : float) : float := fmin (fmin (fmin a b) c) d.

(** Lines 105-121: [None] is [continue]. *)
Definition attempt (target src : nat) (avail : float) (canal : nat) (s : Scan) : option Scan :=
  let w := sc_world s in
  c ← canals w !! canal;
  wsi ← waterSource c;
  ws ← sources w !! wsi;
  if PrimFloat.leb (sourceLevel ws) kEpsilon then None else
  t ← regions w !! target;
  let space := PrimFloat.sub (waterCapacity t) (waterLevel t) in
  let xfer := min4 (sc_deficit s) avail (sourceLevel ws) space in
  if PrimFloat.leb xfer kEpsilon then None else
  let w' := execTransfer canal src target wsi xfer w in
  Some (mkScan w' (PrimFloat.sub (sc_deficit s) xfer) true
          (sc_log s ++ [mkTransfer canal src target wsi xfer w w'])).

(** Lines 104-123. *)
Fixpoint canalLoop (target src : nat) (avail : float) (bucket : list nat) (s : Scan) : Scan :=
  match bucket with
  | [] => s
  | canal :: rest =>
      match attempt target src avail canal s with
      | None => canalLoop target src avail rest s
      | Some s' =>
          if PrimFloat.leb (sc_deficit s') kEpsilon then s'
          else canalLoop target src avail rest s'
      end
  end.

(** Lines 96-125. *)
Fixpoint donorLoop (cm : gmap nat (gmap nat (list nat))) (target : nat)
    (donors : list nat) (s : Scan) : Scan :=
  match donors with
  | [] => s
  | src :: rest =>
      match regions (sc_world s) !! src with
      | None => donorLoop cm target rest s
      | Some r =>
          let avail := safeSurplus r in
          if PrimFloat.leb avail kEpsilon then donorLoop cm target rest s
          else
            match findBucket cm src target with
            | None => donorLoop cm target rest s
            | Some bucket =>
                let s' := canalLoop target src avail bucket s in
                if PrimFloat.leb (sc_deficit s') kEpsilon then s'
                else donorLoop cm target rest s'
            end
      end
  end.

(** Lines 66-70. *)
Definition resetCanal (c : Canal) : Canal :=
  setFlowRate 0%float (if isOpen c then toggleOpen false c else c).

Definition resetCanals (w : World) : World :=
  mkWorld (regions w) (sources w) (resetCanal <$> canals w).

(** Lines 75-83, over the regions from index [i] on. *)
Fixpoint partitionFrom (i : nat) (rs : list Region) (needs : list Need) (donors : list nat)
  : list Need * list nat :=
  match rs with
  | [] => (needs, donors)
  | r :: rs' =>
      let d := getDeficit r in
      if PrimFloat.ltb kEpsilon d
      then partitionFrom (S i) rs' (pq_push (mkNeed i d) needs) donors
      else
        let s := safeSurplus r in
        if PrimFloat.ltb kEpsilon s then partitionFrom (S i) rs' needs (donors ++ [i])
        else partitionFrom (S i) rs' needs donors
  end.

Definition partitionRegions (rs : list Region) : list Need * list nat :=
  partitionFrom 0 rs [] [].

Record Hour := mkHour {
  h_world : World;
  h_needs : list Need;
  h_didTransfer : bool;
  h_loops : Z;
  h_log : list Transfer
}.

(** The guard of line 89 and the body of lines 90-130. *)
Definition greedyIter (cm : gmap nat (gmap nat (list nat))) (donors : list nat) (h : Hour)
  : option Hour :=
  match pq_pop (h_needs h) with
  | None => None
  | Some (curr, rest) =>
      match donors with
      | [] => None
      | _ :: _ =>
          if (h_loops h <? kMaxLoops)%Z then
            let s := donorLoop cm (region curr) donors
                       (mkScan (h_world h) (amount curr) (h_didTransfer h) (h_log h)) in
            let needs' :=
              if PrimFloat.ltb kEpsilon (sc_deficit s)
              then pq_push (mkNeed (region curr) (sc_deficit s)) rest
              else rest in
            Some (mkHour (sc_world s) needs' (sc_did s) (h_loops h + 1)%Z (sc_log s))
          else None
      end
  end.

Fixpoint greedyLoop (fuel : nat) (cm : gmap nat (gmap nat (list nat))) (donors : list nat)
    (h : Hour) : Hour :=
  match fuel with
  | O => h
  | S fuel' =>
      match greedyIter cm donors h with
      | None => h
      | Some h' => greedyLoop fuel' cm donors h'
      end
  end.

Definition hourStart (w : World) : Hour :=
  mkHour (resetCanals w) (fst (partitionRegions (regions w))) false 0 [].

Definition hourDonors (w : World) : list nat :=
  snd (partitionRegions (regions w)).

(** Lines 66-131; [kMaxLoops] iterations of fuel suffice, as the guard
    fails once [loops] has reached [kMaxLoops]. *)
Definition runHour (cm : gmap nat (gmap nat (list nat))) (w : World) : Hour :=
  greedyLoop (Z.to_nat kMaxLoops) cm (hourDonors w) (hourStart w).

(** The canals from index [i] on that join [src] to [target]. *)
Fixpoint bucketOf (i : nat) (cs : list Canal) (src target : nat) : list nat :=
  match cs with
  | [] => []
  | c :: cs' =>
      if decide (sourceRegion c = src ∧ destinationRegion c = target)
      then i :: bucketOf (S i) cs' src target
      else bucketOf (S i) cs' src target
  end.

(** A donor (level 20000000000001, need 0, capacity 20000000000001) and a
    region that lacks 1e14, joined by one canal fed by a water source
    holding 1e15. *)
Definition residueWorld : World :=
  mkWorld [mkRegion 20000000000001%float 0%float 20000000000001%float;
           mkRegion 0%float 100000000000000%float 100000000000000%float]
          [mkWaterSource 1000000000000000%float]
          [mkCanal 0 1 (Some 0%nat) false 0%float].

End Binary64.

(** ** Notions used by the proof that a scan uses a canal once *)

(** The canals that a scan of [donors] for [target] can visit, in the
    order of the visit. *)
Definition scanned (cm : gmap nat (gmap nat (list nat))) (target : nat)
    (donors : list nat) : list nat :=
  mjoin ((λ src, default [] (findBucket cm src target)) <$> donors).

(** No bucket of the index lists a canal twice, and no canal is in the
    buckets of two donors for one target. *)
Definition disjointBuckets (cm : gmap nat (gmap nat (list nat))) : Prop :=
  (∀ src target bucket, findBucket cm src target = Some bucket → NoDup bucket) ∧
  (∀ src src' target b b' ci,
     findBucket cm src target = Some b → findBucket cm src' target = Some b' →
     ci ∈ b → ci ∈ b' → src = src').

(** * Properties *)

(** ** Comparisons and minima of rationals *)

Lemma Qleb_true a b : Qleb a b = true ↔ a <= b.
Proof. apply Qle_bool_iff. Qed.

Lemma Qleb_false a b : Qleb a b = false ↔ b < a.
Proof.
  unfold Qleb. split; intros H.
  - apply Qnot_le_lt. intros Hle. apply Qle_bool_iff in Hle. congruence.
  - destruct (Qle_bool a b) eqn:E; [|done].
    apply Qle_bool_iff in E. lra.
Qed.

Lemma Qgtb_true a b : Qgtb a b = true ↔ b < a.
Proof. unfold Qgtb. rewrite negb_true_iff. apply Qleb_false. Qed.

Lemma Qgtb_false a b : Qgtb a b = false ↔ a <= b.
Proof. unfold Qgtb. rewrite negb_false_iff. apply Qleb_true. Qed.

Lemma kEpsilon_pos : 0 < kEpsilon.
Proof. reflexivity. Qed.

Lemma Qmin_cases a b : (a <= b ∧ Qmin a b = a) ∨ (b < a ∧ Qmin a b = b).
Proof.
  unfold Qmin, GenericMinMax.gmin.
  destruct (a ?= b) eqn:E.
  - left. split; [|done]. apply Qeq_alt in E. lra.
  - left. split; [|done]. apply Qlt_alt in E. lra.
  - right. split; [|done]. apply Qgt_alt in E. lra.
Qed.

Lemma Qmax_cases a b : (b <= a ∧ Qmax a b = a) ∨ (a < b ∧ Qmax a b = b).
Proof.
  unfold Qmax, GenericMinMax.gmax.
  destruct (a ?= b) eqn:E.
  - left. split; [|done]. apply Qeq_alt in E. lra.
  - right. split; [|done]. apply Qlt_alt in E. lra.
  - left. split; [|done]. apply Qgt_alt in E. lra.
Qed.

(** [min4] is below each of its arguments and is one of them. *)
Lemma min4_spec a b c d :
  let m := min4 a b c d in
  (m <= a ∧ m <= b ∧ m <= c ∧ m <= d) ∧ (m = a ∨ m = b ∨ m = c ∨ m = d).
Proof.
  unfold min4.
  destruct (Qmin_cases a b) as [[H1 ->]|[H1 ->]];
    [destruct (Qmin_cases a c) as [[H2 ->]|[H2 ->]]
    |destruct (Qmin_cases b c) as [[H2 ->]|[H2 ->]]].
  - destruct (Qmin_cases a d) as [[H3 ->]|[H3 ->]]; (split; [repeat split; lra|tauto]).
  - destruct (Qmin_cases c d) as [[H3 ->]|[H3 ->]]; (split; [repeat split; lra|tauto]).
  - destruct (Qmin_cases b d) as [[H3 ->]|[H3 ->]]; (split; [repeat split; lra|tauto]).
  - destruct (Qmin_cases c d) as [[H3 ->]|[H3 ->]]; (split; [repeat split; lra|tauto]).
Qed.

Lemma safeSurplus_spec r :
  let x := waterLevel r - waterNeed r - kSafetyMargin * waterCapacity r in
  (x <= 0 ∧ safeSurplus r = 0) ∨ (0 < x ∧ safeSurplus r = x).
Proof. unfold safeSurplus. apply Qmax_cases. Qed.

Lemma getDeficit_spec r :
  let x := waterNeed r - waterLevel r in
  (x <= 0 ∧ getDeficit r = 0) ∨ (0 < x ∧ getDeficit r = x).
Proof. unfold getDeficit. apply Qmax_cases. Qed.

(** ** What a successful attempt is *)

Lemma attempt_Some target src avail canal s s' :
  attempt target src avail canal s = Some s' →
  ∃ c wsi ws t,
    canals (sc_world s) !! canal = Some c ∧
    waterSource c = Some wsi ∧
    sources (sc_world s) !! wsi = Some ws ∧
    kEpsilon < sourceLevel ws ∧
    regions (sc_world s) !! target = Some t ∧
    let xfer := min4 (sc_deficit s) avail (sourceLevel ws)
                  (waterCapacity t - waterLevel t) in
    kEpsilon < xfer ∧
    s' = mkScan (execTransfer canal src target wsi xfer (sc_world s))
           (sc_deficit s - xfer) true
           (sc_log s ++ [mkTransfer canal src target wsi xfer (sc_world s)
                           (execTransfer canal src target wsi xfer (sc_world s))]).
Proof.
  unfold attempt. intros H.
  destruct (canals (sc_world s) !! canal) as [c|] eqn:Hc; [|done].
  simpl in H. destruct (waterSource c) as [wsi|] eqn:Hws; [|done].
  simpl in H. destruct (sources (sc_world s) !! wsi) as [ws|] eqn:Hs; [|done].
  simpl in H. destruct (Qleb (sourceLevel ws) kEpsilon) eqn:Hl; [done|].
  destruct (regions (sc_world s) !! target) as [t|] eqn:Ht; [|done].
  simpl in H.
  destruct (Qleb _ kEpsilon) eqn:Hx in H; [done|].
  inversion H; subst; clear H.
  exists c, wsi, ws, t. apply Qleb_false in Hl, Hx. done.
Qed.

(** ** The queue of needs *)

Lemma need_lt_true a b : need_lt a b = true ↔ amount a < amount b.
Proof. unfold need_lt, Qltb. rewrite negb_true_iff. apply Qleb_false. Qed.

Lemma need_lt_false a b : need_lt a b = false ↔ amount b <= amount a.
Proof. unfold need_lt, Qltb. rewrite negb_false_iff. apply Qleb_true. Qed.

(** Popping removes one entry and keeps the others. *)
Lemma pq_take_perm q : ∀ best, best :: q ≡ₚ (pq_take best q).1 :: (pq_take best q).2.
Proof.
  induction q as [|n q IH]; intros best; simpl; [done|].
  destruct (need_lt best n).
  - specialize (IH n). destruct (pq_take n q) as [b r]. simpl in *.
    etrans; [apply perm_skip, IH|]. apply perm_swap.
  - specialize (IH best). destruct (pq_take best q) as [b r]. simpl in *.
    etrans; [apply perm_swap|]. etrans; [apply perm_skip, IH|]. apply perm_swap.
Qed.

(** The popped entry is a greatest one. *)
Lemma pq_take_max q : ∀ best,
  amount best <= amount (pq_take best q).1 ∧
  Forall (λ m, amount m <= amount (pq_take best q).1) (pq_take best q).2.
Proof.
  induction q as [|n q IH]; intros best; simpl.
  - split; [lra|constructor].
  - destruct (need_lt best n) eqn:E.
    + apply need_lt_true in E. destruct (IH n) as [H1 H2].
      destruct (pq_take n q) as [b r]. simpl in *.
      split; [lra|]. constructor; [lra|done].
    + apply need_lt_false in E. destruct (IH best) as [H1 H2].
      destruct (pq_take best q) as [b r]. simpl in *.
      split; [done|]. constructor; [lra|done].
Qed.

Lemma pq_pop_perm q curr rest : pq_pop q = Some (curr, rest) → q ≡ₚ curr :: rest.
Proof.
  destruct q as [|n q]; [done|]. simpl. intros [= H].
  pose proof (pq_take_perm q n) as P. rewrite H in P. done.
Qed.

Lemma pq_pop_max q curr rest :
  pq_pop q = Some (curr, rest) → Forall (λ m, amount m <= amount curr) rest.
Proof.
  destruct q as [|n q]; [done|]. simpl. intros [= H].
  pose proof (pq_take_max q n) as [_ P]. rewrite H in P. done.
Qed.

Lemma pq_pop_None q : pq_pop q = None ↔ q = [].
Proof. destruct q; simpl; split; congruence. Qed.

(** ** Invariants of the loops

    The three nested loops change the world and the log only through
    successful attempts.  A property of the scanned state that every
    successful attempt preserves is therefore preserved by the loops. *)

Section LoopInvariants.

Variable cm : gmap nat (gmap nat (list nat)).

Lemma canalLoop_inv (I : Scan → Prop) target src avail bucket : ∀ s,
  (∀ c s1 s2, c ∈ bucket → I s1 →
     attempt target src avail c s1 = Some s2 → I s2) →
  I s → I (canalLoop target src avail bucket s).
Proof.
  induction bucket as [|c bucket IH]; intros s Hstep Hs; simpl; [done|].
  assert (Hrest : ∀ c' s1 s2, c' ∈ bucket → I s1 →
            attempt target src avail c' s1 = Some s2 → I s2).
  { intros c' s1 s2 Hin. apply Hstep. by right. }
  destruct (attempt target src avail c s) as [s'|] eqn:E.
  - assert (I s') by (eapply Hstep; [left| |]; done).
    destruct (Qleb (sc_deficit s') kEpsilon); [done|]. by apply IH.
  - by apply IH.
Qed.

Lemma donorLoop_inv (I : Scan → Prop) target donors : ∀ s,
  (∀ src avail c s1 s2, src ∈ donors → I s1 →
     attempt target src avail c s1 = Some s2 → I s2) →
  I s → I (donorLoop cm target donors s).
Proof.
  induction donors as [|src donors IH]; intros s Hstep Hs; simpl; [done|].
  assert (Hrest : ∀ src' avail c s1 s2, src' ∈ donors → I s1 →
            attempt target src' avail c s1 = Some s2 → I s2).
  { intros src' avail c s1 s2 Hin. apply Hstep. by right. }
  destruct (regions (sc_world s) !! src) as [r|]; [|by apply IH].
  destruct (Qleb (safeSurplus r) kEpsilon); [by apply IH|].
  destruct (findBucket cm src target) as [bucket|]; [|by apply IH].
  assert (I (canalLoop target src (safeSurplus r) bucket s)) as H.
  { apply canalLoop_inv; [|done]. intros c s1 s2 _. apply Hstep. by left. }
  destruct (Qleb _ kEpsilon); [done|]. by apply IH.
Qed.

(** What an executed iteration of the greedy loop is. *)
Lemma greedyIter_Some donors h h' :
  greedyIter cm donors h = Some h' →
  ∃ curr rest s,
    pq_pop (h_needs h) = Some (curr, rest) ∧
    donors ≠ [] ∧
    (h_loops h < kMaxLoops)%Z ∧
    s = donorLoop cm (region curr) donors
          (mkScan (h_world h) (amount curr) (h_didTransfer h) (h_log h)) ∧
    h' = mkHour (sc_world s)
           (if Qgtb (sc_deficit s) kEpsilon
            then pq_push (mkNeed (region curr) (sc_deficit s)) rest
            else rest)
           (sc_did s) (h_loops h + 1)%Z (sc_log s).
Proof.
  unfold greedyIter. intros H.
  destruct (pq_pop (h_needs h)) as [[curr rest]|] eqn:Hpop; [|done].
  destruct donors as [|d donors]; [done|].
  destruct (h_loops h <? kMaxLoops)%Z eqn:Hl; [|done].
  injection H as <-. apply Z.ltb_lt in Hl.
  exists curr, rest. eexists. repeat split; done.
Qed.

(** The regions queued after an iteration were queued before it. *)
Lemma greedyIter_needs donors h h' :
  greedyIter cm donors h = Some h' →
  region <$> h_needs h' ⊆ region <$> h_needs h.
Proof.
  intros H. apply greedyIter_Some in H
    as (curr & rest & s & Hpop & _ & _ & _ & ->).
  cbn [h_needs]. apply pq_pop_perm in Hpop.
  intros x Hx. rewrite Hpop. rewrite fmap_cons.
  destruct (Qgtb _ kEpsilon).
  - unfold pq_push in Hx. rewrite fmap_app in Hx.
    apply elem_of_app in Hx as [Hx|Hx]; [by right|].
    apply list_elem_of_singleton in Hx. subst. by left.
  - by right.
Qed.

Lemma greedyIter_inv (J : World → bool → list Transfer → Prop) donors h h' :
  greedyIter cm donors h = Some h' →
  (∀ target src avail c s1 s2,
     target ∈ region <$> h_needs h → src ∈ donors →
     J (sc_world s1) (sc_did s1) (sc_log s1) →
     attempt target src avail c s1 = Some s2 →
     J (sc_world s2) (sc_did s2) (sc_log s2)) →
  J (h_world h) (h_didTransfer h) (h_log h) →
  J (h_world h') (h_didTransfer h') (h_log h').
Proof.
  intros H Hstep Hh. apply greedyIter_Some in H
    as (curr & rest & s & Hpop & _ & _ & -> & ->).
  cbn [h_world h_didTransfer h_log].
  apply (donorLoop_inv (λ s, J (sc_world s) (sc_did s) (sc_log s))); [|done].
  intros src avail c s1 s2 Hsrc. apply Hstep; [|done].
  apply pq_pop_perm in Hpop. rewrite Hpop, fmap_cons. by left.
Qed.

Lemma greedyLoop_inv (J : World → bool → list Transfer → Prop) donors fuel : ∀ h,
  (∀ target src avail c s1 s2,
     target ∈ region <$> h_needs h → src ∈ donors →
     J (sc_world s1) (sc_did s1) (sc_log s1) →
     attempt target src avail c s1 = Some s2 →
     J (sc_world s2) (sc_did s2) (sc_log s2)) →
  J (h_world h) (h_didTransfer h) (h_log h) →
  J (h_world (greedyLoop fuel cm donors h))
    (h_didTransfer (greedyLoop fuel cm donors h))
    (h_log (greedyLoop fuel cm donors h)).
Proof.
  induction fuel as [|fuel IH]; intros h Hstep Hh; simpl; [done|].
  destruct (greedyIter cm donors h) as [h'|] eqn:E; [|done].
  apply IH.
  - intros target src avail c s1 s2 Ht. apply Hstep.
    by apply (greedyIter_needs _ _ _ E).
  - by apply (greedyIter_inv J _ _ _ E).
Qed.

End LoopInvariants.

(** ** The partition of the regions (phase 2) *)

Lemma partitionFrom_spec rs : ∀ i needs donors,
  (∀ n, n ∈ (partitionFrom i rs needs donors).1 →
     n ∈ needs ∨
     ∃ k r, region n = (i + k)%nat ∧ rs !! k = Some r ∧
            kEpsilon < getDeficit r ∧ amount n = getDeficit r) ∧
  (∀ d, d ∈ (partitionFrom i rs needs donors).2 →
     d ∈ donors ∨
     ∃ k r, d = (i + k)%nat ∧ rs !! k = Some r ∧
            getDeficit r <= kEpsilon ∧ kEpsilon < safeSurplus r).
Proof.
  induction rs as [|r rs IH]; intros i needs donors; simpl.
  - split; intros; by left.
  - destruct (Qgtb (getDeficit r) kEpsilon) eqn:Ed;
      [|destruct (Qgtb (safeSurplus r) kEpsilon) eqn:Es].
    + apply Qgtb_true in Ed.
      destruct (IH (S i) (pq_push (mkNeed i (getDeficit r)) needs) donors) as [H1 H2].
      split.
      * intros n Hn. destruct (H1 n Hn) as [Hin|(k & r' & ? & ? & ? & ?)].
        -- unfold pq_push in Hin. apply elem_of_app in Hin as [?|Hin]; [by left|].
           apply list_elem_of_singleton in Hin. subst n. right.
           exists 0%nat, r. simpl. repeat split; [lia|done].
        -- right. exists (S k), r'. repeat split; [lia|done..].
      * intros d Hd. destruct (H2 d Hd) as [?|(k & r' & ? & ? & ? & ?)]; [by left|].
        right. exists (S k), r'. repeat split; [lia|done..].
    + apply Qgtb_false in Ed. apply Qgtb_true in Es.
      destruct (IH (S i) needs (donors ++ [i])) as [H1 H2].
      split.
      * intros n Hn. destruct (H1 n Hn) as [?|(k & r' & ? & ? & ? & ?)]; [by left|].
        right. exists (S k), r'. repeat split; [lia|done..].
      * intros d Hd. destruct (H2 d Hd) as [Hin|(k & r' & ? & ? & ? & ?)].
        -- apply elem_of_app in Hin as [?|Hin]; [by left|].
           apply list_elem_of_singleton in Hin. subst d. right.
           exists 0%nat, r. simpl. repeat split; [lia|done..].
        -- right. exists (S k), r'. repeat split; [lia|done..].
    + destruct (IH (S i) needs donors) as [H1 H2].
      split.
      * intros n Hn. destruct (H1 n Hn) as [?|(k & r' & ? & ? & ? & ?)]; [by left|].
        right. exists (S k), r'. repeat split; [lia|done..].
      * intros d Hd. destruct (H2 d Hd) as [?|(k & r' & ? & ? & ? & ?)]; [by left|].
        right. exists (S k), r'. repeat split; [lia|done..].
Qed.

(** A queued region has a deficit above the threshold. *)
Lemma hourNeedy_spec w i :
  i ∈ hourNeedy w →
  ∃ r, regions w !! i = Some r ∧ kEpsilon < getDeficit r.
Proof.
  unfold hourNeedy, partitionRegions. intros H.
  apply list_elem_of_fmap in H as (n & -> & Hn).
  apply (partitionFrom_spec (regions w) 0 [] []) in Hn
    as [Hn|(k & r & Hk & Hr & Hd & _)].
  - by apply elem_of_nil in Hn.
  - exists r. simpl in Hk. by rewrite Hk.
Qed.

(** A donor has no deficit above the threshold, and a safe surplus above it. *)
Lemma hourDonors_spec w i :
  i ∈ hourDonors w →
  ∃ r, regions w !! i = Some r ∧ getDeficit r <= kEpsilon ∧ kEpsilon < safeSurplus r.
Proof.
  unfold hourDonors, partitionRegions. intros H.
  apply (partitionFrom_spec (regions w) 0 [] []) in H
    as [H|(k & r & Hk & Hr & Hd & Hs)].
  - by apply elem_of_nil in H.
  - exists r. simpl in Hk. by subst.
Qed.

(** No region is both queued and a donor. *)
Lemma needy_not_donor w target src :
  target ∈ hourNeedy w → src ∈ hourDonors w → src ≠ target.
Proof.
  intros Ht Hs ->.
  apply hourNeedy_spec in Ht as (r & Hr & Hd).
  apply hourDonors_spec in Hs as (r' & Hr' & Hd' & _).
  rewrite Hr in Hr'. injection Hr' as <-. lra.
Qed.

(** Every region is queued at most once. *)
Lemma partitionFrom_NoDup rs : ∀ i needs donors,
  (∀ n, n ∈ needs → (region n < i)%nat) →
  NoDup (region <$> needs) →
  NoDup (region <$> (partitionFrom i rs needs donors).1).
Proof.
  induction rs as [|r rs IH]; intros i needs donors Hlt Hnd; simpl; [done|].
  destruct (Qgtb (getDeficit r) kEpsilon);
    [|destruct (Qgtb (safeSurplus r) kEpsilon)].
  - apply IH.
    + intros n Hn. unfold pq_push in Hn. apply elem_of_app in Hn as [Hn|Hn].
      * apply Hlt in Hn. lia.
      * apply list_elem_of_singleton in Hn. subst. simpl. lia.
    + unfold pq_push. rewrite fmap_app. apply NoDup_app. split; [done|]. split.
      * intros x Hx Hx'. apply list_elem_of_singleton in Hx'. subst x.
        apply list_elem_of_fmap in Hx as (n & Hn1 & Hn2).
        apply Hlt in Hn2. simpl in Hn1. lia.
      * apply NoDup_singleton.
  - apply IH; [|done]. intros n Hn. apply Hlt in Hn. lia.
  - apply IH; [|done]. intros n Hn. apply Hlt in Hn. lia.
Qed.

Lemma hourNeedy_NoDup w : NoDup (hourNeedy w).
Proof.
  apply partitionFrom_NoDup; [|constructor].
  intros n Hn. by apply elem_of_nil in Hn.
Qed.

(** The invariant principle for a whole hour. *)
Lemma runHour_inv (J : World → bool → list Transfer → Prop) cm w :
  (∀ target src avail c s1 s2,
     target ∈ hourNeedy w → src ∈ hourDonors w →
     J (sc_world s1) (sc_did s1) (sc_log s1) →
     attempt target src avail c s1 = Some s2 →
     J (sc_world s2) (sc_did s2) (sc_log s2)) →
  J (resetCanals w) false [] →
  J (h_world (runHour cm w)) (h_didTransfer (runHour cm w)) (h_log (runHour cm w)).
Proof.
  intros Hstep H0. unfold runHour. by apply greedyLoop_inv.
Qed.

(** ** Termination of the greedy loop *)

Lemma greedyIterations_bound fuel cm donors : ∀ h,
  (Z.of_nat (greedyIterations fuel cm donors h) <= Z.max 0 (kMaxLoops - h_loops h))%Z.
Proof.
  induction fuel as [|fuel IH]; intros h; simpl; [lia|].
  destruct (greedyIter cm donors h) as [h'|] eqn:E; [|lia].
  specialize (IH h').
  apply greedyIter_Some in E as (curr & rest & s & _ & _ & Hl & _ & ->).
  cbn [h_loops] in IH. lia.
Qed.

Lemma greedyIter_capped cm donors h :
  (kMaxLoops <= h_loops h)%Z → greedyIter cm donors h = None.
Proof.
  intros H. destruct (greedyIter cm donors h) as [h'|] eqn:E; [|done].
  apply greedyIter_Some in E as (? & ? & ? & _ & _ & Hl & _). lia.
Qed.

(** With fuel for the iterations that the cap leaves, the loop stops on
    its own guard. *)
Lemma greedyLoop_exits cm donors fuel : ∀ h,
  (kMaxLoops - h_loops h <= Z.of_nat fuel)%Z →
  greedyIter cm donors (greedyLoop fuel cm donors h) = None.
Proof.
  induction fuel as [|fuel IH]; intros h Hf; simpl.
  - apply greedyIter_capped. lia.
  - destruct (greedyIter cm donors h) as [h'|] eqn:E; [|done].
    apply IH.
    apply greedyIter_Some in E as (? & ? & ? & _ & _ & _ & _ & ->).
    cbn [h_loops]. lia.
Qed.

(** More fuel than that changes nothing. *)
Lemma greedyLoop_fuel cm donors fuel extra : ∀ h,
  (kMaxLoops - h_loops h <= Z.of_nat fuel)%Z →
  greedyLoop (fuel + extra) cm donors h = greedyLoop fuel cm donors h.
Proof.
  induction fuel as [|fuel IH]; intros h Hf; simpl.
  - destruct extra as [|extra]; [done|]. simpl.
    rewrite greedyIter_capped; [done|lia].
  - destruct (greedyIter cm donors h) as [h'|] eqn:E; [|done].
    apply IH.
    apply greedyIter_Some in E as (? & ? & ? & _ & _ & _ & _ & ->).
    cbn [h_loops]. lia.
Qed.

(** C6.  From any world, queue of needs, list of donors and canal index,
    the greedy loop of an hour executes its body at most 1000 times,
    however many evaluations of the guard the model is given; and the
    loop of [runHour] ends because its guard fails. *)
Theorem greedy_loop_halts (fuel : nat) (cm : gmap nat (gmap nat (list nat)))
    (donors : list nat) (w : World) (needs : list Need) :
  let h0 := mkHour w needs false 0 [] in
  (greedyIterations fuel cm donors h0 ≤ 1000)%nat ∧
  greedyIter cm donors (greedyLoop (Z.to_nat kMaxLoops) cm donors h0) = None ∧
  greedyLoop (Z.to_nat kMaxLoops + fuel) cm donors h0
    = greedyLoop (Z.to_nat kMaxLoops) cm donors h0.
Proof.
  intros h0. split; [|split].
  - pose proof (greedyIterations_bound fuel cm donors h0) as H.
    subst h0. unfold kMaxLoops in H. cbn [h_loops] in H. lia.
  - apply greedyLoop_exits. subst h0. unfold kMaxLoops. cbn [h_loops]. lia.
  - apply greedyLoop_fuel. subst h0. unfold kMaxLoops. cbn [h_loops]. lia.
Qed.

(** ** The frame of the allocation *)

Lemma fmap_alter_fixed {A B} (f : A → B) (g : A → A) i (l : list A) :
  (∀ x, f (g x) = f x) → f <$> alter g i l = f <$> l.
Proof.
  intros H. rewrite (list_fmap_alter f g id).
  - by apply list_alter_id.
  - apply Forall_forall. intros x _. apply H.
Qed.

Lemma sameFrame_refl w : sameFrame w w.
Proof. done. Qed.

Lemma sameFrame_trans w1 w2 w3 : sameFrame w1 w2 → sameFrame w2 w3 → sameFrame w1 w3.
Proof.
  intros (H1 & H2 & H3) (H4 & H5 & H6). repeat split; congruence.
Qed.

Lemma execTransfer_frame canal src target ws xfer w :
  sameFrame w (execTransfer canal src target ws xfer w).
Proof.
  unfold sameFrame, execTransfer. cbn [regions canals sources].
  split; [|split].
  - by rewrite !fmap_alter_fixed.
  - by rewrite !fmap_alter_fixed.
  - apply length_alter.
Qed.

Lemma resetCanals_frame w : sameFrame w (resetCanals w).
Proof.
  unfold sameFrame, resetCanals. cbn [regions canals sources].
  split; [done|]. split; [|done].
  rewrite <- list_fmap_compose. apply list_fmap_ext.
  intros i c _. unfold resetCanal. simpl. by destruct (isOpen c).
Qed.

Lemma attempt_frame target src avail c s1 s2 :
  attempt target src avail c s1 = Some s2 → sameFrame (sc_world s1) (sc_world s2).
Proof.
  intros H. apply attempt_Some in H
    as (cr & wsi & ws & t & _ & _ & _ & _ & _ & _ & ->).
  apply execTransfer_frame.
Qed.

Lemma runHour_frame cm w : sameFrame w (h_world (runHour cm w)).
Proof.
  apply (runHour_inv (λ w' _ _, sameFrame w w')).
  - intros target src avail c s1 s2 _ _ H1 H2.
    eapply sameFrame_trans; [done|]. by eapply attempt_frame.
  - apply resetCanals_frame.
Qed.

Lemma sameFrame_regions_length w w' :
  sameFrame w w' → length (regions w') = length (regions w).
Proof. intros (H & _ & _). by rewrite <- (length_fmap regionFixed), H, length_fmap. Qed.

Lemma sameFrame_region w w' i r :
  sameFrame w w' → regions w !! i = Some r →
  ∃ r', regions w' !! i = Some r' ∧
        waterNeed r' = waterNeed r ∧ waterCapacity r' = waterCapacity r.
Proof.
  intros (H & _ & _) Hr.
  assert ((regionFixed <$> regions w') !! i = Some (regionFixed r)) as H'.
  { by rewrite H, list_lookup_fmap, Hr. }
  rewrite list_lookup_fmap in H'.
  destruct (regions w' !! i) as [r'|]; [|done].
  injection H' as H1 H2. by exists r'.
Qed.

Lemma sameFrame_canal w w' i c :
  sameFrame w w' → canals w !! i = Some c →
  ∃ c', canals w' !! i = Some c' ∧
        sourceRegion c' = sourceRegion c ∧
        destinationRegion c' = destinationRegion c ∧
        waterSource c' = waterSource c.
Proof.
  intros (_ & H & _) Hc.
  assert ((canalFixed <$> canals w') !! i = Some (canalFixed c)) as H'.
  { by rewrite H, list_lookup_fmap, Hc. }
  rewrite list_lookup_fmap in H'.
  destruct (canals w' !! i) as [c'|]; [|done].
  injection H' as H1 H2 H3. by exists c'.
Qed.

(** ** Invariants of the driver loop *)

Section SolveInvariants.

Variable solved : AcequiaManager → bool.

Lemma solveLoop_inv (K : World → Prop) (P : list Transfer → Prop)
    maxHours cm fuel : ∀ m hist,
  (∀ w, K w → K (h_world (runHour cm w)) ∧ P (h_log (runHour cm w))) →
  K (world m) → Forall P hist →
  K (world (solveLoop solved fuel maxHours cm m hist).1) ∧
  Forall P (solveLoop solved fuel maxHours cm m hist).2.
Proof.
  induction fuel as [|fuel IH]; intros m hist Hhour Hm Hh; simpl; [done|].
  unfold solveIter.
  destruct (negb (solved m) && (hour m <? maxHours)%Z); [|done].
  destruct (Hhour _ Hm) as [HK HP].
  destruct (negb (h_didTransfer (runHour cm (world m)))); simpl.
  - split; [done|]. apply Forall_app. split; [done|]. by apply Forall_singleton.
  - apply IH; [done..|]. apply Forall_app. split; [done|]. by apply Forall_singleton.
Qed.

Lemma solveLoop_SimulationMax maxHours cm fuel : ∀ m hist,
  SimulationMax (solveLoop solved fuel maxHours cm m hist).1 = SimulationMax m.
Proof.
  induction fuel as [|fuel IH]; intros m hist; simpl; [done|].
  unfold solveIter.
  destruct (negb (solved m) && (hour m <? maxHours)%Z); [|done].
  destruct (negb (h_didTransfer (runHour cm (world m)))); simpl; [done|].
  by rewrite IH.
Qed.

(** With fuel for the hours that the budget leaves, the loop of line 63
    ends on its guard or on its [break]: more fuel changes nothing. *)
Lemma solveLoop_exits maxHours cm fuel extra : ∀ m hist,
  (maxHours - hour m <= Z.of_nat fuel)%Z →
  solveLoop solved (fuel + extra) maxHours cm m hist
  = solveLoop solved fuel maxHours cm m hist.
Proof.
  induction fuel as [|fuel IH]; intros m hist Hf; simpl.
  - destruct extra as [|extra]; [done|]. simpl. unfold solveIter.
    assert ((hour m <? maxHours)%Z = false) as -> by (apply Z.ltb_ge; lia).
    by rewrite andb_false_r.
  - unfold solveIter.
    destruct (negb (solved m) && (hour m <? maxHours)%Z); [|done].
    destruct (negb (h_didTransfer (runHour cm (world m)))); [done|].
    apply IH. simpl. lia.
Qed.

(** C10.  An invocation of [solveProblems] leaves the need and the
    capacity of every region, the source region, destination region and
    water source of every canal, the number of water sources and the
    hour budget as they were: it writes only the levels of regions and
    water sources, the open flag and flow rate of canals, and the hour
    counter. *)
Theorem solveProblems_frame (m : AcequiaManager) :
  let m' := solveProblems solved m in
  (λ r, (waterNeed r, waterCapacity r)) <$> regions (world m')
    = (λ r, (waterNeed r, waterCapacity r)) <$> regions (world m) ∧
  (λ c, (sourceRegion c, destinationRegion c, waterSource c)) <$> canals (world m')
    = (λ c, (sourceRegion c, destinationRegion c, waterSource c)) <$> canals (world m) ∧
  length (sources (world m')) = length (sources (world m)) ∧
  SimulationMax m' = SimulationMax m.
Proof.
  intros m'. subst m'. unfold solveProblems, solveRun.
  destruct (solveLoop_inv (sameFrame (world m)) (λ _, True) (SimulationMax m)
              (buildCanalMap (canals (world m)))
              (Z.to_nat (SimulationMax m - hour m)) m []) as [(H1 & H2 & H3) _].
  - intros w Hw. split; [|done].
    eapply sameFrame_trans; [done|apply runHour_frame].
  - apply sameFrame_refl.
  - constructor.
  - repeat split; [done..|]. apply solveLoop_SimulationMax.
Qed.

End SolveInvariants.

(** ** Water sources stay non-negative *)

Lemma attempt_sources target src avail c s1 s2 :
  attempt target src avail c s1 = Some s2 →
  sourcesNonneg (sc_world s1) → sourcesNonneg (sc_world s2).
Proof.
  intros H Hs. apply attempt_Some in H
    as (cr & wsi & ws & t & _ & _ & Hws & _ & _ & Hx & ->).
  unfold sourcesNonneg, execTransfer. cbn [sc_world sources].
  apply Forall_alter; [done|].
  intros x Hx' _. rewrite Hws in Hx'. injection Hx' as <-.
  destruct (min4_spec (sc_deficit s1) avail (sourceLevel ws)
              (waterCapacity t - waterLevel t)) as [(_ & _ & Hle & _) _].
  unfold updateSourceLevel. cbn [sourceLevel]. lra.
Qed.

Lemma runHour_sources cm w :
  sourcesNonneg w →
  sourcesNonneg (h_world (runHour cm w)) ∧
  Forall (λ e, sourcesNonneg (t_after e)) (h_log (runHour cm w)).
Proof.
  intros Hw.
  apply (runHour_inv
           (λ w' _ l, sourcesNonneg w' ∧ Forall (λ e, sourcesNonneg (t_after e)) l)).
  - intros target src avail c s1 s2 _ _ [H1 H2] Ha.
    pose proof (attempt_sources _ _ _ _ _ _ Ha H1) as H.
    apply attempt_Some in Ha
      as (cr & wsi & ws & t & _ & _ & _ & _ & _ & _ & ->).
    cbn [sc_world sc_log] in *. split; [done|].
    apply Forall_app. split; [done|]. by apply Forall_singleton.
  - split; [done|constructor].
Qed.

(** C8.  When no water source starts below zero, every water source is at
    or above zero after every transfer of every hour of an invocation, and
    at its end. *)
Theorem sources_never_negative (solved : AcequiaManager → bool) (m : AcequiaManager) :
  sourcesNonneg (world m) →
  Forall (Forall (λ e, sourcesNonneg (t_after e))) (solveRun solved m).2 ∧
  sourcesNonneg (world (solveProblems solved m)).
Proof.
  intros Hm. unfold solveProblems, solveRun.
  destruct (solveLoop_inv solved sourcesNonneg
              (Forall (λ e, sourcesNonneg (t_after e))) (SimulationMax m)
              (buildCanalMap (canals (world m)))
              (Z.to_nat (SimulationMax m - hour m)) m []) as [H1 H2];
    [|done|constructor|done].
  intros w Hw. by apply runHour_sources.
Qed.

(** ** Conservation *)




(** ** Hours without progress *)

(** [didTransfer] is set exactly when the hour has executed a transfer. *)
Lemma runHour_didTransfer cm w :
  h_didTransfer (runHour cm w) = false ↔ h_log (runHour cm w) = [].
Proof.
  apply (runHour_inv (λ _ did l, did = false ↔ l = [])); [|done].
  intros target src avail c s1 s2 _ _ _ Ha.
  apply attempt_Some in Ha as (? & ? & ? & ? & _ & _ & _ & _ & _ & _ & ->).
  cbn [sc_did sc_log]. split; [done|].
  intros H. by apply app_nil in H as [_ ?].
Qed.

(** C7.  When the loop of line 63 enters an hour (the manager is not
    solved and the hour budget is not spent) and that hour executes no
    transfer, the loop ends there: the manager keeps its hour counter, its
    world is the one that hour left, and the history grows by that hour
    alone, whatever number of further iterations the budget would allow. *)
Theorem no_progress_stops (solved : AcequiaManager → bool) (fuel : nat) (maxHours : Z)
    (cm : gmap nat (gmap nat (list nat))) (m : AcequiaManager)
    (hist : list (list Transfer)) :
  solved m = false →
  (hour m < maxHours)%Z →
  h_log (runHour cm (world m)) = [] →
  let r := solveLoop solved (S fuel) maxHours cm m hist in
  hour r.1 = hour m ∧
  r.1 = mkManager (h_world (runHour cm (world m))) (hour m) (SimulationMax m) ∧
  r.2 = hist ++ [[]].
Proof.
  intros Hs Hh Hl r. subst r. simpl. unfold solveIter.
  rewrite Hs. apply Z.ltb_lt in Hh. rewrite Hh. simpl.
  apply runHour_didTransfer in Hl as Hd. rewrite Hd. simpl.
  by rewrite Hl.
Qed.

(** ** Scenarios *)

(** C4.  One hour on [simpleWorld] executes one transfer, of 7, along the
    canal from A to B; it leaves A at 13, B at 9, the water source at 93
    and the canal open with flow rate 7/3600. *)
Theorem simple_transfer_scenario :
  let h := runHour (buildCanalMap (canals simpleWorld)) simpleWorld in
  ∃ e a b s c,
    h_log h = [e] ∧
    t_canal e = 0%nat ∧ t_src e = 0%nat ∧ t_target e = 1%nat ∧ t_amount e == 7 ∧
    regions (h_world h) = [a; b] ∧ waterLevel a == 13 ∧ waterLevel b == 9 ∧
    sources (h_world h) = [s] ∧ sourceLevel s == 93 ∧
    canals (h_world h) = [c] ∧ isOpen c = true ∧ flowRate c == 7 / 3600.
Proof.
  intros h. vm_compute in h. subst h. cbn [h_log h_world regions sources canals].
  do 5 eexists. repeat split.
Qed.

(** The donor of [parallelWorld] is within bounds before the hour. *)
Lemma parallelWorld_within_bounds : regionsWithinBounds parallelWorld.
Proof. repeat constructor; simpl; lra. Qed.

(** C1, at [parallelWorld].  The levels start within bounds.  The hour
    executes two transfers of 18 from the donor, one along each canal: the
    surplus read at line 97 is not read again between the canals of a
    bucket.  After the second transfer the donor is at -16. *)
Theorem donor_driven_below_zero :
  let h := runHour (buildCanalMap (canals parallelWorld)) parallelWorld in
  regionsWithinBounds parallelWorld ∧
  ∃ e1 e2 d,
    h_log h = [e1; e2] ∧
    t_src e2 = 0%nat ∧
    regions (t_after e2) !! 0%nat = Some d ∧
    waterLevel d == -16 ∧
    ¬ regionsWithinBounds (t_after e2).
Proof.
  intros h. split; [apply parallelWorld_within_bounds|].
  vm_compute in h. subst h. cbn [h_log].
  do 3 eexists. repeat split.
  unfold regionsWithinBounds. cbn [t_after regions].
  intros H. apply Forall_cons in H as [[H _] _]. simpl in H. lra.
Qed.

(** C2, at [parallelWorld].  The second transfer moves 18 from the donor,
    whose safe surplus at that moment is 0: the amount is the minimum taken
    with the surplus read before the first transfer. *)
Theorem transfer_exceeds_current_surplus :
  let h := runHour (buildCanalMap (canals parallelWorld)) parallelWorld in
  ∃ e1 e2 d,
    h_log h = [e1; e2] ∧
    t_src e1 = 0%nat ∧ t_src e2 = 0%nat ∧
    t_target e1 = 1%nat ∧ t_target e2 = 1%nat ∧
    t_before e2 = t_after e1 ∧
    regions (t_before e2) !! 0%nat = Some d ∧
    safeSurplus d == 0 ∧
    t_amount e2 == 18 ∧
    ∀ deficit level space,
      ¬ t_amount e2 == min4 deficit (safeSurplus d) level space.
Proof.
  intros h. vm_compute in h. subst h. cbn [h_log].
  do 3 eexists. repeat split.
  intros deficit level space H.
  destruct (min4_spec deficit
              (safeSurplus {| waterLevel := 20 + - (180 # 10);
                              waterNeed := 0; waterCapacity := 20 |})
              level space) as [(_ & Hle & _) _].
  cbn [t_amount] in H.
  assert (safeSurplus {| waterLevel := 20 + - (180 # 10);
                         waterNeed := 0; waterCapacity := 20 |} == 0) as H0
    by reflexivity.
  rewrite <- H, H0 in Hle. revert Hle. apply Qlt_not_le. reflexivity.
Qed.

(** ** The order of service *)

(** The transfers of one scan of the donors all go to the scanned target. *)
Lemma donorLoop_targets cm target donors s :
  ∃ new, sc_log (donorLoop cm target donors s) = sc_log s ++ new ∧
         Forall (λ e, t_target e = target) new.
Proof.
  apply (donorLoop_inv cm
           (λ s', ∃ new, sc_log s' = sc_log s ++ new ∧
                         Forall (λ e, t_target e = target) new)).
  - intros src avail c s1 s2 _ (new & Hl & Hn) Ha.
    apply attempt_Some in Ha as (? & ? & ? & ? & _ & _ & _ & _ & _ & _ & ->).
    cbn [sc_log]. eexists (new ++ [_]). split.
    + by rewrite Hl, app_assoc.
    + apply Forall_app. split; [done|]. by apply Forall_singleton.
  - exists []. split; [by rewrite app_nil_r|constructor].
Qed.

(** C5 as stated fails on ties.  In [tieWorld] the queue of the hour holds
    two needs of the same amount; the one popped is not strictly above the
    other. *)
Lemma popped_need_not_strictly_largest :
  ∃ curr other,
    pq_pop (h_needs (hourStart tieWorld)) = Some (curr, [other]) ∧
    ¬ amount other < amount curr.
Proof.
  do 2 eexists. split; [vm_compute; reflexivity|].
  cbn [amount]. apply Qle_not_lt. vm_compute. discriminate.
Qed.

(** C5, amended.  Every executed iteration of the greedy loop pops a need
    whose amount is at least that of every other queued need (so the one
    strictly above all others, when there is one), leaves the others
    queued, and sends all its transfers to the region of that need.  In
    [priorityWorld] the hour executes one transfer: 8 to the region with
    deficit 10, which is enumerated after the region with deficit 5; the
    latter stays at its level, and the donor is left with a safe surplus
    of 0. *)
Theorem greedy_serves_a_largest_need :
  (∀ cm donors h h',
     greedyIter cm donors h = Some h' →
     ∃ curr rest new,
       pq_pop (h_needs h) = Some (curr, rest) ∧
       h_needs h ≡ₚ curr :: rest ∧
       Forall (λ m, amount m <= amount curr) rest ∧
       h_log h' = h_log h ++ new ∧
       Forall (λ e, t_target e = region curr) new) ∧
  (let h := runHour (buildCanalMap (canals priorityWorld)) priorityWorld in
   ∃ e five ten donor,
     h_log h = [e] ∧
     t_src e = 2%nat ∧ t_target e = 1%nat ∧ t_amount e == 8 ∧
     regions (h_world h) = [five; ten; donor] ∧
     waterLevel five == 0 ∧ waterLevel ten == 8 ∧
     safeSurplus donor == 0).
Proof.
  split.
  - intros cm donors h h' H.
    apply greedyIter_Some in H as (curr & rest & s & Hpop & _ & _ & -> & ->).
    destruct (donorLoop_targets cm (region curr) donors
                (mkScan (h_world h) (amount curr) (h_didTransfer h) (h_log h)))
      as (new & Hl & Hn).
    exists curr, rest, new. cbn [h_log sc_log] in *.
    repeat split; [done|by apply pq_pop_perm|by eapply pq_pop_max|done..].
  - intros h. vm_compute in h. subst h. cbn [h_log h_world regions].
    do 4 eexists. repeat split.
Qed.

Lemma greedy_serves_a_largest_need_witness :
  let cm := buildCanalMap (canals priorityWorld) in
  let donors := hourDonors priorityWorld in
  let h := hourStart priorityWorld in
  ∃ h' curr rest new,
    greedyIter cm donors h = Some h' ∧
    pq_pop (h_needs h) = Some (curr, rest) ∧
    h_needs h ≡ₚ curr :: rest ∧
    Forall (λ m, amount m <= amount curr) rest ∧
    h_log h' = h_log h ++ new ∧
    Forall (λ e, t_target e = region curr) new.
Proof.
  intros cm donors h.
  assert (∃ h', greedyIter cm donors h = Some h') as [h' E]
    by (eexists; vm_compute; reflexivity).
  destruct (proj1 greedy_serves_a_largest_need cm donors h h' E)
    as (curr & rest & new & H).
  exists h', curr, rest, new. split; [exact E|exact H].
Defined.

(** ** The canal index *)

Lemma canalMap_add_bucket cm i c src target :
  default [] (findBucket (canalMap_add cm i c) src target)
  = default [] (findBucket cm src target)
    ++ (if decide (sourceRegion c = src ∧ destinationRegion c = target)
        then [i] else []).
Proof.
  unfold findBucket, canalMap_add.
  destruct (decide (sourceRegion c = src)) as [<-|Hs].
  - rewrite lookup_insert_eq. simpl.
    destruct (decide (destinationRegion c = target)) as [<-|Ht].
    + rewrite lookup_insert_eq. simpl.
      rewrite decide_True by done. done.
    + rewrite lookup_insert_ne by done.
      rewrite decide_False by tauto. by rewrite app_nil_r.
  - rewrite lookup_insert_ne by done.
    rewrite decide_False by tauto. by rewrite app_nil_r.
Qed.

Lemma canalMap_from_bucket cs src target : ∀ i cm,
  default [] (findBucket (canalMap_from i cs cm) src target)
  = default [] (findBucket cm src target) ++ bucketOf i cs src target.
Proof.
  induction cs as [|c cs IH]; intros i cm; simpl.
  - by rewrite app_nil_r.
  - rewrite IH, canalMap_add_bucket, <- app_assoc.
    by destruct (decide _).
Qed.

Lemma bucketOf_spec cs src target : ∀ i ci,
  ci ∈ bucketOf i cs src target →
  (i ≤ ci)%nat ∧
  ∃ c, cs !! (ci - i)%nat = Some c ∧ sourceRegion c = src ∧ destinationRegion c = target.
Proof.
  induction cs as [|c cs IH]; intros i ci H; simpl in H.
  - by apply elem_of_nil in H.
  - destruct (decide _) as [[Hs Ht]|_].
    + apply elem_of_cons in H as [->|H].
      * split; [lia|]. exists c. by rewrite Nat.sub_diag.
      * apply IH in H as (Hle & c' & Hc & ?). split; [lia|].
        exists c'. split; [|done].
        replace (ci - i)%nat with (S (ci - S i)) by lia. done.
    + apply IH in H as (Hle & c' & Hc & ?). split; [lia|].
      exists c'. split; [|done].
      replace (ci - i)%nat with (S (ci - S i)) by lia. done.
Qed.

Lemma bucketOf_NoDup cs src target : ∀ i, NoDup (bucketOf i cs src target).
Proof.
  induction cs as [|c cs IH]; intros i; simpl; [constructor|].
  destruct (decide _); [|done].
  constructor; [|done].
  intros H. apply bucketOf_spec in H as [H _]. lia.
Qed.

Lemma buildCanalMap_good w : goodMap (buildCanalMap (canals w)) w.
Proof.
  intros src target bucket H.
  pose proof (canalMap_from_bucket (canals w) src target 0 ∅) as E.
  fold (buildCanalMap (canals w)) in E. rewrite H in E.
  unfold findBucket in E. rewrite lookup_empty in E. simpl in E.
  rewrite lookup_empty in E. simpl in E. subst bucket.
  split; [apply bucketOf_NoDup|].
  intros ci Hci. apply bucketOf_spec in Hci as (_ & c & Hc & ?).
  rewrite Nat.sub_0_r in Hc. by exists c.
Qed.

Lemma goodMap_frame cm w w' : sameFrame w w' → goodMap cm w → goodMap cm w'.
Proof.
  intros Hf Hg src target bucket H.
  destruct (Hg _ _ _ H) as [Hnd Hb]. split; [done|].
  intros ci Hci. destruct (Hb _ Hci) as (c & Hc & Hs & Ht).
  destruct (sameFrame_canal _ _ _ _ Hf Hc) as (c' & Hc' & Hs' & Ht' & _).
  exists c'. split; [done|]. split; congruence.
Qed.

(** ** In exact arithmetic a canal carries at most one transfer an hour

    This section is about the exact embedding only.  After a transfer
    along a canal, the amount having been the least of four quantities,
    one of them is used up: the target needs no more and leaves the queue,
    or the donor has no safe surplus left, or the water source is empty, or
    the target is full.  During the hour donors only lose water, queued
    regions only gain and water sources only lose, so the canal stays
    unusable until the hour ends.  The doubles of the code do not use a
    quantity up exactly: see [canal_used_twice_in_an_hour] at the end of
    the file for an hour that uses a canal twice, and
    [canal_once_per_scan] for what the loops guarantee whatever the
    arithmetic. *)

Lemma sameFrame_sym w w' : sameFrame w w' → sameFrame w' w.
Proof. intros (H1 & H2 & H3). by repeat split. Qed.

Lemma safeSurplus_mono r r' :
  waterNeed r' = waterNeed r → waterCapacity r' = waterCapacity r →
  waterLevel r' <= waterLevel r → safeSurplus r' <= safeSurplus r.
Proof.
  intros Hn Hc Hl.
  destruct (safeSurplus_spec r) as [[H1 ->]|[H1 ->]];
    destruct (safeSurplus_spec r') as [[H2 ->]|[H2 ->]];
    rewrite ?Hn, ?Hc in *; lra.
Qed.

Lemma attempt_evolves w0 target src avail c s1 s2 :
  target ∈ hourNeedy w0 → src ∈ hourDonors w0 →
  attempt target src avail c s1 = Some s2 →
  evolves w0 (sc_world s1) (sc_world s2).
Proof.
  intros Ht Hs Ha. split; [by eapply attempt_frame|].
  pose proof (needy_not_donor _ _ _ Ht Hs) as Hne.
  apply attempt_Some in Ha
    as (cr & wsi & ws & t & _ & _ & _ & _ & _ & Hx & ->).
  pose proof kEpsilon_pos as Hpos.
  set (xfer := min4 _ _ _ _) in *.
  unfold execTransfer. cbn [sc_world regions sources].
  split; [|split].
  - intros i r r' Hi Hr Hr'.
    rewrite list_lookup_alter_ne in Hr'
      by (intros <-; by apply (needy_not_donor _ _ _ Ht Hi)).
    destruct (decide (src = i)) as [->|Hsi].
    + rewrite list_lookup_alter_eq, Hr in Hr'. injection Hr' as <-. simpl. lra.
    + rewrite list_lookup_alter_ne, Hr in Hr' by done. injection Hr' as <-. lra.
  - intros i r r' Hi Hr Hr'.
    assert (src ≠ i) as Hsi by (by apply (needy_not_donor _ _ _ Hi Hs)).
    destruct (decide (target = i)) as [->|Hti].
    + rewrite list_lookup_alter_eq, list_lookup_alter_ne, Hr in Hr' by done.
      injection Hr' as <-. simpl. lra.
    + rewrite !list_lookup_alter_ne, Hr in Hr' by done. injection Hr' as <-. lra.
  - intros j s s' Hj Hj'.
    destruct (decide (wsi = j)) as [->|Hne'].
    + rewrite list_lookup_alter_eq, Hj in Hj'. injection Hj' as <-. simpl. lra.
    + rewrite list_lookup_alter_ne, Hj in Hj' by done. injection Hj' as <-. lra.
Qed.

Lemma evolves_surplusLow w0 w w' i :
  evolves w0 w w' → i ∈ hourDonors w0 → surplusLow w i → surplusLow w' i.
Proof.
  intros (Hf & Hd & _ & _) Hi Hlow r' Hr'.
  destruct (sameFrame_region _ _ _ _ (sameFrame_sym _ _ Hf) Hr') as (r & Hr & Hn & Hc).
  pose proof (Hd _ _ _ Hi Hr Hr') as Hl.
  pose proof (safeSurplus_mono r r' (eq_sym Hn) (eq_sym Hc) Hl).
  specialize (Hlow _ Hr). lra.
Qed.

Lemma evolves_spaceLow w0 w w' i :
  evolves w0 w w' → i ∈ hourNeedy w0 → spaceLow w i → spaceLow w' i.
Proof.
  intros (Hf & _ & Hn & _) Hi Hlow r' Hr'.
  destruct (sameFrame_region _ _ _ _ (sameFrame_sym _ _ Hf) Hr') as (r & Hr & _ & Hc).
  pose proof (Hn _ _ _ Hi Hr Hr') as Hl.
  specialize (Hlow _ Hr). rewrite <- Hc. lra.
Qed.

Lemma evolves_sourceLow w0 w w' j :
  evolves w0 w w' → sourceLow w j → sourceLow w' j.
Proof.
  intros ((_ & _ & Hlen) & _ & _ & Hs) Hlow s' Hs'.
  assert (is_Some (sources w !! j)) as [s Hsj].
  { apply lookup_lt_is_Some. rewrite <- Hlen. by eapply lookup_lt_Some. }
  pose proof (Hs _ _ _ Hsj Hs'). specialize (Hlow _ Hsj). lra.
Qed.

Lemma evolves_hardDead w0 w w' c :
  evolves w0 w w' → destinationRegion c ∈ hourNeedy w0 →
  hardDead w c → hardDead w' c.
Proof.
  intros He Hd [(j & Hj & Hlow)|Hlow].
  - left. exists j. split; [done|]. by eapply evolves_sourceLow.
  - right. by eapply evolves_spaceLow.
Qed.

Lemma evolves_deadCanal w0 w w' pending ci :
  evolves w0 w w' → deadCanal w0 w pending ci → deadCanal w0 w' pending ci.
Proof.
  intros He (c & Hc & Hs & Hd & H). exists c. repeat split; [done..|].
  destruct H as [H|[H|H]]; [by left| |].
  - right; left. by eapply evolves_surplusLow.
  - right; right. by eapply evolves_hardDead.
Qed.

Lemma deadCanal_weaken w0 w pending pending' ci :
  pending' ⊆ pending → deadCanal w0 w pending ci → deadCanal w0 w pending' ci.
Proof.
  intros Hsub (c & Hc & Hs & Hd & H). exists c. repeat split; [done..|].
  destruct H as [H|H]; [left|by right]. intros Hin. apply H. by apply Hsub.
Qed.

Lemma attempt_log target src avail c s1 s2 :
  attempt target src avail c s1 = Some s2 →
  t_canal <$> sc_log s2 = (t_canal <$> sc_log s1) ++ [c].
Proof.
  intros Ha. apply attempt_Some in Ha
    as (? & ? & ? & ? & _ & _ & _ & _ & _ & _ & ->).
  cbn [sc_log]. by rewrite fmap_app.
Qed.

(** No attempt succeeds on a canal whose water source is empty or whose
    target is full. *)
Lemma attempt_blocked w0 target src avail ci s c0 :
  canals w0 !! ci = Some c0 → sameFrame w0 (sc_world s) →
  destinationRegion c0 = target → hardDead (sc_world s) c0 →
  attempt target src avail ci s = None.
Proof.
  intros Hc0 Hf Hd Hhard.
  destruct (attempt target src avail ci s) as [s'|] eqn:Ha; [|done].
  exfalso. apply attempt_Some in Ha
    as (cr & wsi & ws & t & Hc & Hw & Hws & Hl & Ht & Hx & _).
  destruct (sameFrame_canal _ _ _ _ Hf Hc0) as (c' & Hc' & _ & _ & Hw').
  rewrite Hc in Hc'. injection Hc' as <-.
  destruct (min4_spec (sc_deficit s) avail (sourceLevel ws)
              (waterCapacity t - waterLevel t)) as [(_ & _ & _ & Hsp) _].
  destruct Hhard as [(j & Hj & Hlow)|Hlow].
  - rewrite <- Hw', Hw in Hj. injection Hj as <-.
    specialize (Hlow _ Hws). lra.
  - rewrite Hd in Hlow. specialize (Hlow _ Ht). simpl in Hx. lra.
Qed.

(** After a transfer the target needs no more, or the canal is unusable. *)
Lemma attempt_new_dead w0 target src avail ci s1 s2 c0 :
  target ∈ hourNeedy w0 → src ∈ hourDonors w0 →
  sameFrame w0 (sc_world s1) →
  canals w0 !! ci = Some c0 → destinationRegion c0 = target →
  (∀ r, regions (sc_world s1) !! src = Some r → safeSurplus r <= avail) →
  attempt target src avail ci s1 = Some s2 →
  sc_deficit s2 <= kEpsilon ∨ surplusLow (sc_world s2) src ∨ hardDead (sc_world s2) c0.
Proof.
  intros Ht Hs Hf Hc0 Hd Hav Ha.
  pose proof (needy_not_donor _ _ _ Ht Hs) as Hne.
  pose proof kEpsilon_pos as Hpos.
  apply attempt_Some in Ha
    as (cr & wsi & ws & t & Hc & Hw & Hws & Hl & Htg & Hx & ->).
  destruct (sameFrame_canal _ _ _ _ Hf Hc0) as (c' & Hc' & _ & _ & Hw').
  rewrite Hc in Hc'. injection Hc' as <-.
  destruct (min4_spec (sc_deficit s1) avail (sourceLevel ws)
              (waterCapacity t - waterLevel t)) as [_ Hone].
  simpl in Hx. set (xfer := min4 _ _ _ _) in *.
  unfold surplusLow, hardDead, sourceLow, spaceLow, execTransfer.
  cbn [sc_world sc_deficit regions sources].
  destruct Hone as [E|[E|[E|E]]].
  - left. assert (xfer == sc_deficit s1) as E' by (by rewrite E). lra.
  - right; left. intros r2 Hr2.
    rewrite list_lookup_alter_ne, list_lookup_alter_eq in Hr2 by done.
    destruct (regions (sc_world s1) !! src) as [r|] eqn:Hr; [|done].
    injection Hr2 as <-.
    assert (xfer == avail) as E' by (by rewrite E).
    specialize (Hav r eq_refl).
    destruct (safeSurplus_spec r) as [[H1 H1']|[H1 H1']];
      destruct (safeSurplus_spec (updateWaterLevel (- xfer) r)) as [[H2 ->]|[H2 ->]];
      rewrite ?H1' in Hav; simpl in *; lra.
  - right; right; left. exists wsi. split; [congruence|].
    intros s' Hs'. rewrite list_lookup_alter_eq, Hws in Hs'. injection Hs' as <-.
    assert (xfer == sourceLevel ws) as E' by (by rewrite E). simpl. lra.
  - right; right; right. rewrite Hd. intros r2 Hr2.
    rewrite list_lookup_alter_eq, list_lookup_alter_ne, Htg in Hr2 by done.
    injection Hr2 as <-.
    assert (xfer == waterCapacity t - waterLevel t) as E' by (by rewrite E).
    simpl. lra.
Qed.

Lemma evolves_avail w0 w w' src avail :
  evolves w0 w w' → src ∈ hourDonors w0 →
  (∀ r, regions w !! src = Some r → safeSurplus r <= avail) →
  ∀ r', regions w' !! src = Some r' → safeSurplus r' <= avail.
Proof.
  intros (Hf & Hd & _ & _) Hs Hav r' Hr'.
  destruct (sameFrame_region _ _ _ _ (sameFrame_sym _ _ Hf) Hr') as (r & Hr & Hn & Hc).
  pose proof (Hd _ _ _ Hs Hr Hr') as Hl.
  pose proof (safeSurplus_mono r r' (eq_sym Hn) (eq_sym Hc) Hl).
  specialize (Hav _ Hr). lra.
Qed.

Section OneTransferPerCanal.

Variable w0 : World.
Variable cm : gmap nat (gmap nat (list nat)).
Hypothesis cm_good : goodMap cm w0.

(** One successful attempt, from a scan state whose used canals are
    distinct and dead, on a canal that is not among them. *)
Lemma attempt_scanPost target src avail others ci c0 s s' :
  target ∈ hourNeedy w0 → src ∈ hourDonors w0 → target ∉ others →
  canals w0 !! ci = Some c0 → sourceRegion c0 = src → destinationRegion c0 = target →
  sameFrame w0 (sc_world s) →
  NoDup (t_canal <$> sc_log s) →
  deadAll w0 (sc_world s) (target :: others) (sc_log s) →
  (∀ r, regions (sc_world s) !! src = Some r → safeSurplus r <= avail) →
  (ci ∈ t_canal <$> sc_log s → hardDead (sc_world s) c0) →
  attempt target src avail ci s = Some s' →
  scanPost w0 target others s' ∧ evolves w0 (sc_world s) (sc_world s').
Proof.
  intros Ht Hs Hto Hc0 Hsrc Hdst Hf Hnd Hdead Hav Hhard Ha.
  pose proof (attempt_evolves _ _ _ _ _ _ _ Ht Hs Ha) as He.
  split; [|done]. split; [|split].
  - eapply sameFrame_trans; [done|]. by eapply attempt_frame.
  - rewrite (attempt_log _ _ _ _ _ _ Ha). apply NoDup_app.
    split; [done|]. split; [|apply NoDup_singleton].
    intros cj Hcj Hcj'. apply list_elem_of_singleton in Hcj'. subst cj.
    pose proof (attempt_blocked w0 target src avail ci s c0 Hc0 Hf Hdst (Hhard Hcj)).
    congruence.
  - assert (∀ pending, destinationRegion c0 ∉ pending ∨
              surplusLow (sc_world s') (sourceRegion c0) ∨
              hardDead (sc_world s') c0 →
              deadCanal w0 (sc_world s') pending ci) as Hnew.
    { intros pending H. exists c0. repeat split; [done|by rewrite Hsrc|by rewrite Hdst|done]. }
    destruct (attempt_new_dead _ _ _ _ _ _ _ _ Ht Hs Hf Hc0 Hdst Hav Ha)
      as [Hdone|Hlow].
    + right. split; [done|]. intros cj Hcj.
      rewrite (attempt_log _ _ _ _ _ _ Ha) in Hcj.
      apply elem_of_app in Hcj as [Hcj|Hcj].
      * apply (deadCanal_weaken _ _ (target :: others)); [intros x Hx; by right|].
        eapply evolves_deadCanal; [done|]. by apply Hdead.
      * apply list_elem_of_singleton in Hcj. subst cj.
        apply Hnew. left. by rewrite Hdst.
    + left. intros cj Hcj.
      rewrite (attempt_log _ _ _ _ _ _ Ha) in Hcj.
      apply elem_of_app in Hcj as [Hcj|Hcj].
      * eapply evolves_deadCanal; [done|]. by apply Hdead.
      * apply list_elem_of_singleton in Hcj. subst cj.
        apply Hnew. right. by rewrite Hsrc.
Qed.

Lemma canalLoop_dead target src avail others :
  target ∈ hourNeedy w0 → src ∈ hourDonors w0 → target ∉ others →
  ∀ bucket s,
    NoDup bucket →
    (∀ ci, ci ∈ bucket →
       ∃ c, canals w0 !! ci = Some c ∧ sourceRegion c = src ∧ destinationRegion c = target) →
    sameFrame w0 (sc_world s) →
    NoDup (t_canal <$> sc_log s) →
    deadAll w0 (sc_world s) (target :: others) (sc_log s) →
    (∀ r, regions (sc_world s) !! src = Some r → safeSurplus r <= avail) →
    (∀ ci c, ci ∈ bucket → ci ∈ t_canal <$> sc_log s →
             canals w0 !! ci = Some c → hardDead (sc_world s) c) →
    scanPost w0 target others (canalLoop target src avail bucket s).
Proof.
  intros Ht Hs Hto.
  induction bucket as [|ci bucket IH];
    intros s Hnd Hb Hf Hu Hdead Hav Hhard; simpl.
  - split; [done|]. split; [done|]. by left.
  - apply NoDup_cons in Hnd as [Hci Hnd].
    assert (∀ cj, cj ∈ bucket →
              ∃ c, canals w0 !! cj = Some c ∧ sourceRegion c = src ∧
                   destinationRegion c = target) as Hb'.
    { intros cj Hcj. apply Hb. by right. }
    destruct (attempt target src avail ci s) as [s'|] eqn:Ha.
    + destruct (Hb ci) as (c0 & Hc0 & Hsrc & Hdst); [by left|].
      destruct (attempt_scanPost target src avail others ci c0 s s')
        as [Hpost He]; try done.
      { intros Hin. apply (Hhard ci); [by left|done..]. }
      destruct (Qleb (sc_deficit s') kEpsilon) eqn:Hq; [done|].
      apply Qleb_false in Hq.
      destruct Hpost as (Hf' & Hu' & [Hdead'|[Hle _]]); [|lra].
      apply IH; try done.
      * by eapply evolves_avail.
      * intros cj c Hcj Hin Hc.
        rewrite (attempt_log _ _ _ _ _ _ Ha) in Hin.
        apply elem_of_app in Hin as [Hin|Hin].
        -- eapply evolves_hardDead; [done| |].
           ++ destruct (Hb' _ Hcj) as (c' & Hc' & _ & Hd').
              rewrite Hc in Hc'. injection Hc' as <-. by rewrite Hd'.
           ++ apply (Hhard cj); [by right|done..].
        -- apply list_elem_of_singleton in Hin. by subst cj.
    + apply IH; try done.
      intros cj c Hcj. apply Hhard. by right.
Qed.

Lemma donorLoop_dead target others :
  target ∈ hourNeedy w0 → target ∉ others →
  ∀ donors s,
    donors ⊆ hourDonors w0 →
    sameFrame w0 (sc_world s) →
    NoDup (t_canal <$> sc_log s) →
    deadAll w0 (sc_world s) (target :: others) (sc_log s) →
    scanPost w0 target others (donorLoop cm target donors s).
Proof.
  intros Ht Hto.
  induction donors as [|src donors IH]; intros s Hsub Hf Hu Hdead; simpl.
  - split; [done|]. split; [done|]. by left.
  - assert (src ∈ hourDonors w0) as Hs by (apply Hsub; by left).
    assert (donors ⊆ hourDonors w0) as Hsub'.
    { intros x Hx. apply Hsub. by right. }
    destruct (regions (sc_world s) !! src) as [r|] eqn:Hr; [|by apply IH].
    destruct (Qleb (safeSurplus r) kEpsilon) eqn:Hq; [by apply IH|].
    apply Qleb_false in Hq.
    destruct (findBucket cm src target) as [bucket|] eqn:Hbk; [|by apply IH].
    destruct (cm_good _ _ _ Hbk) as [Hnd Hb].
    assert (scanPost w0 target others
              (canalLoop target src (safeSurplus r) bucket s)) as Hpost.
    { apply canalLoop_dead; try done.
      - intros r' Hr'. rewrite Hr in Hr'. injection Hr' as <-. lra.
      - intros ci c Hci Hin Hc.
        destruct (Hdead _ Hin) as (c' & Hc' & _ & _ & H).
        rewrite Hc in Hc'. injection Hc' as <-.
        destruct (Hb _ Hci) as (c' & Hc' & Hsrc & Hdst).
        rewrite Hc in Hc'. injection Hc' as <-.
        destruct H as [H|[H|H]]; [| |done].
        + exfalso. apply H. rewrite Hdst. by left.
        + exfalso. rewrite Hsrc in H. specialize (H _ Hr). lra. }
    destruct (Qleb (sc_deficit _) kEpsilon) eqn:Hq'; [done|].
    apply Qleb_false in Hq'.
    destruct Hpost as (Hf' & Hu' & [Hdead'|[Hle _]]); [|lra].
    by apply IH.
Qed.

Lemma greedyIter_hourInv donors h h' :
  donors ⊆ hourDonors w0 →
  hourInv w0 h → greedyIter cm donors h = Some h' → hourInv w0 h'.
Proof.
  intros Hsub (Hf & Hu & Hq & Hn & Hdead) H.
  apply greedyIter_Some in H as (curr & rest & s & Hpop & _ & _ & Hs & ->).
  apply pq_pop_perm in Hpop.
  assert (region <$> h_needs h ≡ₚ region curr :: (region <$> rest)) as Hperm
    by (by rewrite Hpop).
  rewrite Hperm in Hq. apply NoDup_cons in Hq as [Hnotin Hq'].
  assert (region curr ∈ hourNeedy w0) as Ht.
  { apply Hn. rewrite Hperm. by left. }
  assert (region <$> rest ⊆ hourNeedy w0) as Hn'.
  { intros x Hx. apply Hn. rewrite Hperm. by right. }
  assert (scanPost w0 (region curr) (region <$> rest) s) as (Hf' & Hu' & Hpost).
  { rewrite Hs. apply donorLoop_dead; try done.
    intros ci Hci. eapply deadCanal_weaken; [|by apply Hdead].
    intros x Hx. by rewrite Hperm. }
  unfold hourInv. cbn [h_world h_log h_needs].
  split; [done|]. split; [done|].
  destruct (Qgtb (sc_deficit s) kEpsilon) eqn:Hg.
  - apply Qgtb_true in Hg.
    destruct Hpost as [Hdead'|[Hle _]]; [|lra].
    unfold pq_push. rewrite fmap_app. simpl.
    split; [|split].
    + apply NoDup_app. split; [done|]. split; [|apply NoDup_singleton].
      intros x Hx Hx'. apply list_elem_of_singleton in Hx'. by subst x.
    + intros x Hx. apply elem_of_app in Hx as [Hx|Hx]; [by apply Hn'|].
      apply list_elem_of_singleton in Hx. by subst x.
    + intros ci Hci. eapply deadCanal_weaken; [|by apply Hdead'].
      intros x Hx. apply elem_of_app in Hx as [Hx|Hx]; [by right|].
      apply list_elem_of_singleton in Hx. subst x. by left.
  - split; [done|]. split; [done|].
    destruct Hpost as [Hdead'|[_ Hdead']]; [|done].
    intros ci Hci. eapply deadCanal_weaken; [|by apply Hdead'].
    intros x Hx. by right.
Qed.

Lemma greedyLoop_hourInv donors fuel : ∀ h,
  donors ⊆ hourDonors w0 →
  hourInv w0 h → hourInv w0 (greedyLoop fuel cm donors h).
Proof.
  induction fuel as [|fuel IH]; intros h Hsub Hh; simpl; [done|].
  destruct (greedyIter cm donors h) as [h'|] eqn:E; [|done].
  apply IH; [done|]. by eapply greedyIter_hourInv.
Qed.

Lemma hourStart_hourInv : hourInv w0 (hourStart w0).
Proof.
  unfold hourInv, hourStart. cbn [h_world h_log h_needs].
  split; [apply resetCanals_frame|]. split; [constructor|].
  split; [apply hourNeedy_NoDup|]. split; [done|].
  intros ci Hci. by apply elem_of_nil in Hci.
Qed.

Lemma runHour_NoDup : NoDup (t_canal <$> h_log (runHour cm w0)).
Proof.
  destruct (greedyLoop_hourInv (hourDonors w0) (Z.to_nat kMaxLoops) (hourStart w0))
    as (_ & H & _); [done|apply hourStart_hourInv|done].
Qed.

End OneTransferPerCanal.

(** Over the exact rationals, in every hour of an invocation, and in one
    hour run from any world with the index of its canals, no canal carries
    two transfers.  (Not so over binary64, see above.) *)
Lemma exact_hour_uses_canal_once (solved : AcequiaManager → bool)
    (m : AcequiaManager) (w : World) :
  NoDup (t_canal <$> h_log (runHour (buildCanalMap (canals w)) w)) ∧
  Forall (λ l, NoDup (t_canal <$> l)) (solveRun solved m).2.
Proof.
  split.
  - apply runHour_NoDup, buildCanalMap_good.
  - unfold solveRun.
    apply (solveLoop_inv solved (sameFrame (world m)) (λ l, NoDup (t_canal <$> l)));
      [|apply sameFrame_refl|constructor].
    intros w' Hw'. split.
    + eapply sameFrame_trans; [done|apply runHour_frame].
    + apply runHour_NoDup. eapply goodMap_frame; [done|]. apply buildCanalMap_good.
Qed.

(** ** Instances of the conditional statements *)

Lemma no_progress_stops_witness :
  let m := mkManager stuckWorld 0 5 in
  let cm := buildCanalMap (canals stuckWorld) in
  let r := solveLoop (λ _, false) 4 5 cm m [] in
  hour r.1 = 0%Z ∧
  r.1 = mkManager (h_world (runHour cm stuckWorld)) 0 5 ∧
  r.2 = [[]].
Proof.
  intros m cm.
  apply (no_progress_stops (λ _, false) 3 5 cm m []).
  - reflexivity.
  - reflexivity.
  - vm_compute. reflexivity.
Defined.

Lemma sources_never_negative_witness :
  let m := mkManager simpleWorld 0 3 in
  sourcesNonneg (world m) ∧
  Forall (Forall (λ e, sourcesNonneg (t_after e))) (solveRun (λ _, false) m).2 ∧
  sourcesNonneg (world (solveProblems (λ _, false) m)).
Proof.
  intros m.
  assert (sourcesNonneg (world m)) as H.
  { repeat constructor. unfold Qle. simpl. lia. }
  split; [exact H|].
  apply (sources_never_negative (λ _, false) m H).
Defined.

(** * Further properties of the code *)

(** ** The derived quantities (lines 32-41) *)

(** X1.  Both quantities are non-negative, and for a region of non-negative
    capacity at most one of them is positive: a region that lacks water
    has nothing to give. *)
Theorem deficit_excludes_surplus (r : Region) :
  0 <= waterCapacity r →
  0 <= getDeficit r ∧ 0 <= safeSurplus r ∧
  (0 < getDeficit r → safeSurplus r = 0) ∧
  (0 < safeSurplus r → getDeficit r = 0).
Proof.
  intros Hc.
  destruct (getDeficit_spec r) as [[H1 ->]|[H1 ->]];
    destruct (safeSurplus_spec r) as [[H2 ->]|[H2 ->]];
    unfold kSafetyMargin in *; repeat split; try lra; intros; try done; lra.
Qed.

Lemma deficit_excludes_surplus_witness :
  let r := mkRegion 2 10 20 in
  0 <= getDeficit r ∧ 0 <= safeSurplus r ∧
  (0 < getDeficit r → safeSurplus r = 0) ∧
  (0 < safeSurplus r → getDeficit r = 0).
Proof.
  intros r. apply (deficit_excludes_surplus r).
  unfold Qle. simpl. lia.
Defined.

(** ** The partition (lines 73-83) *)

Lemma partitionFrom_keeps rs : ∀ i needs donors,
  (∀ n, n ∈ needs → n ∈ (partitionFrom i rs needs donors).1) ∧
  (∀ d, d ∈ donors → d ∈ (partitionFrom i rs needs donors).2).
Proof.
  induction rs as [|r rs IH]; intros i needs donors; simpl; [done|].
  destruct (Qgtb (getDeficit r) kEpsilon);
    [|destruct (Qgtb (safeSurplus r) kEpsilon)].
  - destruct (IH (S i) (pq_push (mkNeed i (getDeficit r)) needs) donors) as [H1 H2].
    split; [|done]. intros n Hn. apply H1. unfold pq_push.
    apply elem_of_app. by left.
  - destruct (IH (S i) needs (donors ++ [i])) as [H1 H2].
    split; [done|]. intros d Hd. apply H2. apply elem_of_app. by left.
  - apply IH.
Qed.

Lemma partitionFrom_complete rs : ∀ i needs donors k r,
  rs !! k = Some r →
  (kEpsilon < getDeficit r →
   mkNeed (i + k) (getDeficit r) ∈ (partitionFrom i rs needs donors).1) ∧
  (getDeficit r <= kEpsilon → kEpsilon < safeSurplus r →
   (i + k)%nat ∈ (partitionFrom i rs needs donors).2).
Proof.
  induction rs as [|r0 rs IH]; intros i needs donors k r Hk; [done|].
  destruct k as [|k]; simpl in Hk.
  - injection Hk as ->. simpl. rewrite Nat.add_0_r. split.
    + intros Hd. apply Qgtb_true in Hd as Hd'. rewrite Hd'.
      apply partitionFrom_keeps. unfold pq_push. apply elem_of_app. right.
      by apply list_elem_of_singleton.
    + intros Hd Hs. apply Qgtb_false in Hd. apply Qgtb_true in Hs.
      rewrite Hd, Hs. apply partitionFrom_keeps. apply elem_of_app. right.
      by apply list_elem_of_singleton.
  - simpl. replace (i + S k)%nat with (S i + k)%nat by lia.
    destruct (Qgtb (getDeficit r0) kEpsilon);
      [|destruct (Qgtb (safeSurplus r0) kEpsilon)]; by apply IH.
Qed.

(** X2.  A region is queued exactly when its deficit is above the threshold,
    with that deficit as its amount; it is a donor exactly when its
    deficit is not above the threshold and its safe surplus is. *)
Theorem partition_characterised (w : World) :
  (∀ n, n ∈ (partitionRegions (regions w)).1 ↔
        ∃ r, regions w !! region n = Some r ∧
             kEpsilon < getDeficit r ∧ amount n = getDeficit r) ∧
  (∀ i, i ∈ hourDonors w ↔
        ∃ r, regions w !! i = Some r ∧
             getDeficit r <= kEpsilon ∧ kEpsilon < safeSurplus r).
Proof.
  split.
  - intros n. split.
    + intros Hn.
      apply (partitionFrom_spec (regions w) 0 [] []) in Hn
        as [Hn|(k & r & Hk & Hr & Hd & Ha)]; [by apply elem_of_nil in Hn|].
      exists r. simpl in Hk. by rewrite Hk.
    + intros (r & Hr & Hd & Ha).
      destruct (partitionFrom_complete (regions w) 0 [] [] _ _ Hr) as [H _].
      specialize (H Hd). simpl in H. rewrite <- Ha in H. by destruct n.
  - intros i. split; [apply hourDonors_spec|].
    intros (r & Hr & Hd & Hs).
    destruct (partitionFrom_complete (regions w) 0 [] [] _ _ Hr) as [_ H].
    by apply H.
Qed.

Lemma partitionFrom_sorted rs : ∀ i needs donors,
  (∀ n, n ∈ needs → (region n < i)%nat) →
  (∀ d, d ∈ donors → (d < i)%nat) →
  StronglySorted lt (region <$> needs) → StronglySorted lt donors →
  StronglySorted lt (region <$> (partitionFrom i rs needs donors).1) ∧
  StronglySorted lt (partitionFrom i rs needs donors).2.
Proof.
  induction rs as [|r rs IH]; intros i needs donors Hn Hd Sn Sd; simpl; [done|].
  destruct (Qgtb (getDeficit r) kEpsilon);
    [|destruct (Qgtb (safeSurplus r) kEpsilon)].
  - apply IH; try done.
    + intros n Hin. unfold pq_push in Hin. apply elem_of_app in Hin as [Hin|Hin].
      * apply Hn in Hin. lia.
      * apply list_elem_of_singleton in Hin. subst. simpl. lia.
    + intros d Hin. apply Hd in Hin. lia.
    + unfold pq_push. rewrite fmap_app. apply StronglySorted_app_2; [|done|].
      * intros x1 x2 H1 H2. apply list_elem_of_singleton in H2. subst x2.
        apply list_elem_of_fmap in H1 as (n & -> & Hin). by apply Hn.
      * repeat constructor.
  - apply IH; try done.
    + intros n Hin. apply Hn in Hin. lia.
    + intros d Hin. apply elem_of_app in Hin as [Hin|Hin].
      * apply Hd in Hin. lia.
      * apply list_elem_of_singleton in Hin. subst. lia.
    + apply StronglySorted_app_2; [|done|].
      * intros x1 x2 H1 H2. apply list_elem_of_singleton in H2. subst x2.
        by apply Hd.
      * repeat constructor.
  - apply IH; try done.
    + intros n Hin. apply Hn in Hin. lia.
    + intros d Hin. apply Hd in Hin. lia.
Qed.

Lemma sorted_lt_NoDup (l : list nat) : StronglySorted lt l → NoDup l.
Proof.
  induction 1 as [|x l _ IH Hall]; constructor; [|done].
  intros Hx. pose proof (proj1 (Forall_forall _ _) Hall x Hx). lia.
Qed.

(** X3.  The donors are listed in the order of the enumeration of the
    regions, which is the order in which every scan visits them: their
    list is strictly increasing.  No region is listed twice as a donor,
    and no region is queued twice. *)
Theorem partition_in_enumeration_order (w : World) :
  StronglySorted lt (hourDonors w) ∧ NoDup (hourDonors w) ∧ NoDup (hourNeedy w).
Proof.
  assert (StronglySorted lt (hourNeedy w) ∧ StronglySorted lt (hourDonors w))
    as [Hn Hd].
  { apply (partitionFrom_sorted (regions w) 0 [] []); try constructor.
    - intros n Hn. by apply elem_of_nil in Hn.
    - intros d Hd. by apply elem_of_nil in Hd. }
  split; [done|]. split; by apply sorted_lt_NoDup.
Qed.

(** ** Hours that have nothing to do (lines 85-89) *)

Lemma hourNeedy_nil w :
  Forall (λ r, getDeficit r <= kEpsilon) (regions w) →
  (partitionRegions (regions w)).1 = [].
Proof.
  intros H. destruct ((partitionRegions (regions w)).1) as [|n l] eqn:E; [done|].
  assert (n ∈ (partitionRegions (regions w)).1) as Hn by (rewrite E; by left).
  apply (partitionFrom_spec (regions w) 0 [] []) in Hn
    as [Hn|(k & r & _ & Hr & Hd & _)]; [by apply elem_of_nil in Hn|].
  pose proof (Forall_lookup_1 _ _ _ _ H Hr) as Hle. simpl in Hle. lra.
Qed.

Lemma hourDonors_nil w :
  Forall (λ r, kEpsilon < getDeficit r ∨ safeSurplus r <= kEpsilon) (regions w) →
  hourDonors w = [].
Proof.
  intros H. destruct (hourDonors w) as [|d l] eqn:E; [done|].
  assert (d ∈ hourDonors w) as Hd by (rewrite E; by left).
  apply hourDonors_spec in Hd as (r & Hr & Hd & Hs).
  pose proof (Forall_lookup_1 _ _ _ _ H Hr) as Hle. simpl in Hle. lra.
Qed.

(** X4.  When no region has a deficit above the threshold, or when no region
    without such a deficit has a safe surplus above it, the hour executes
    no iteration of the greedy loop: it only resets the canals, whatever
    the canal index. *)
Theorem idle_hour_only_resets (cm : gmap nat (gmap nat (list nat))) (w : World) :
  Forall (λ r, getDeficit r <= kEpsilon) (regions w) ∨
  Forall (λ r, kEpsilon < getDeficit r ∨ safeSurplus r <= kEpsilon) (regions w) →
  h_world (runHour cm w) = resetCanals w ∧
  h_log (runHour cm w) = [] ∧
  h_didTransfer (runHour cm w) = false ∧
  h_loops (runHour cm w) = 0%Z ∧
  regions (h_world (runHour cm w)) = regions w ∧
  sources (h_world (runHour cm w)) = sources w.
Proof.
  intros H.
  assert (runHour cm w = hourStart w) as ->; [|done].
  unfold runHour. destruct (Z.to_nat kMaxLoops) as [|fuel]; [done|].
  cbn [greedyLoop].
  assert (greedyIter cm (hourDonors w) (hourStart w) = None) as ->; [|done].
  unfold greedyIter, hourStart. cbn [h_needs].
  destruct H as [H|H].
  - by rewrite (hourNeedy_nil w H).
  - rewrite (hourDonors_nil w H). by destruct (pq_pop _) as [[? ?]|].
Qed.

Lemma idle_hour_only_resets_witness :
  let w := stuckWorld in
  let cm := buildCanalMap (canals w) in
  h_world (runHour cm w) = resetCanals w ∧
  h_log (runHour cm w) = [] ∧
  h_didTransfer (runHour cm w) = false ∧
  h_loops (runHour cm w) = 0%Z ∧
  regions (h_world (runHour cm w)) = regions w ∧
  sources (h_world (runHour cm w)) = sources w.
Proof.
  intros w cm. apply (idle_hour_only_resets cm w).
  right.
  apply Forall_cons. split; [left; vm_compute; reflexivity|].
  apply Forall_cons. split; [right; vm_compute; discriminate|].
  constructor.
Defined.

(** ** What a transfer moves (lines 105-111) *)

Lemma attempt_bounded target src avail c s1 s2 :
  attempt target src avail c s1 = Some s2 →
  ∃ e, sc_log s2 = sc_log s1 ++ [e] ∧ boundedTransfer e ∧
       t_amount e <= avail ∧ t_amount e <= sc_deficit s1.
Proof.
  intros Ha. apply attempt_Some in Ha
    as (cr & wsi & ws & t & Hc & Hw & Hws & Hl & Htg & Hx & ->).
  destruct (min4_spec (sc_deficit s1) avail (sourceLevel ws)
              (waterCapacity t - waterLevel t)) as [(H1 & H2 & H3 & H4) _].
  eexists. split; [done|]. unfold boundedTransfer.
  cbn [t_amount t_before t_source t_target].
  split; [|done]. split; [done|]. by exists ws, t.
Qed.

(** X5.  Every transfer of an hour, from any world and with any canal index,
    moves more than the threshold, from a water source that holds more
    than the threshold, and no more than that source holds or than the
    target has room for. *)
Theorem transfers_are_bounded (cm : gmap nat (gmap nat (list nat))) (w : World) :
  Forall boundedTransfer (h_log (runHour cm w)).
Proof.
  apply (runHour_inv (λ _ _ l, Forall boundedTransfer l)); [|constructor].
  intros target src avail c s1 s2 _ _ H Ha.
  apply attempt_bounded in Ha as (e & -> & He & _).
  apply Forall_app. split; [done|]. by apply Forall_singleton.
Qed.

(** ** Water moves one way during an hour (lines 96-118) *)

Lemma evolves_reset w : evolves w w (resetCanals w).
Proof.
  split; [apply resetCanals_frame|]. cbn [resetCanals regions sources].
  split; [|split].
  - intros i r r' _ H1 H2. rewrite H1 in H2. injection H2 as <-. lra.
  - intros i r r' _ H1 H2. rewrite H1 in H2. injection H2 as <-. lra.
  - intros j s s' H1 H2. rewrite H1 in H2. injection H2 as <-. lra.
Qed.

Lemma evolves_trans w0 w1 w2 w3 :
  evolves w0 w1 w2 → evolves w0 w2 w3 → evolves w0 w1 w3.
Proof.
  intros (Hf & Hd & Hn & Hs) (Hf' & Hd' & Hn' & Hs').
  split; [by eapply sameFrame_trans|]. split; [|split].
  - intros i r r3 Hi Hr Hr3.
    destruct (sameFrame_region _ _ _ _ Hf Hr) as (r2 & Hr2 & _).
    pose proof (Hd _ _ _ Hi Hr Hr2). pose proof (Hd' _ _ _ Hi Hr2 Hr3). lra.
  - intros i r r3 Hi Hr Hr3.
    destruct (sameFrame_region _ _ _ _ Hf Hr) as (r2 & Hr2 & _).
    pose proof (Hn _ _ _ Hi Hr Hr2). pose proof (Hn' _ _ _ Hi Hr2 Hr3). lra.
  - intros j s s3 Hj Hj3.
    assert (is_Some (sources w2 !! j)) as [s2 Hj2].
    { apply lookup_lt_is_Some. destruct Hf as (_ & _ & ->).
      by eapply lookup_lt_Some. }
    pose proof (Hs _ _ _ Hj Hj2). pose proof (Hs' _ _ _ Hj2 Hj3). lra.
Qed.

Lemma runHour_evolves cm w :
  evolves w w (h_world (runHour cm w)) ∧
  ∀ i, i ∉ hourDonors w → i ∉ hourNeedy w →
       regions (h_world (runHour cm w)) !! i = regions w !! i.
Proof.
  apply (runHour_inv
           (λ w' _ _, evolves w w w' ∧
                      ∀ i, i ∉ hourDonors w → i ∉ hourNeedy w →
                           regions w' !! i = regions w !! i)).
  - intros target src avail c s1 s2 Ht Hs [H1 H2] Ha. split.
    + eapply evolves_trans; [done|]. by eapply attempt_evolves.
    + intros i Hd Hn. rewrite <- (H2 i Hd Hn).
      apply attempt_Some in Ha
        as (cr & wsi & ws & t & _ & _ & _ & _ & _ & _ & ->).
      unfold execTransfer. cbn [sc_world regions].
      rewrite !list_lookup_alter_ne; [done|by intros ->|by intros ->].
  - split; [apply evolves_reset|done].
Qed.

(** X7.  During an hour a donor never gains water, a queued region never
    loses any, and a region that is neither keeps its level; need and
    capacity stay as they were. *)
Theorem hour_moves_water_one_way (cm : gmap nat (gmap nat (list nat))) (w : World)
    (i : nat) (r : Region) :
  regions w !! i = Some r →
  ∃ r', regions (h_world (runHour cm w)) !! i = Some r' ∧
        waterNeed r' = waterNeed r ∧ waterCapacity r' = waterCapacity r ∧
        (i ∈ hourDonors w → waterLevel r' <= waterLevel r) ∧
        (i ∈ hourNeedy w → waterLevel r <= waterLevel r') ∧
        (i ∉ hourDonors w → i ∉ hourNeedy w → r' = r).
Proof.
  intros Hr. destruct (runHour_evolves cm w) as [(Hf & Hd & Hn & _) Hu].
  destruct (sameFrame_region _ _ _ _ Hf Hr) as (r' & Hr' & Hne & Hc).
  exists r'. repeat split; try done.
  - intros Hi. by apply (Hd i r r').
  - intros Hi. by apply (Hn i r r').
  - intros H1 H2. rewrite (Hu i H1 H2), Hr in Hr'. by injection Hr'.
Qed.

Lemma hour_moves_water_one_way_witness :
  let w := simpleWorld in
  let cm := buildCanalMap (canals w) in
  ∃ r', regions (h_world (runHour cm w)) !! 0%nat = Some r' ∧
        waterNeed r' = 10 ∧ waterCapacity r' = 30 ∧
        (0%nat ∈ hourDonors w → waterLevel r' <= 20) ∧
        (0%nat ∈ hourNeedy w → 20 <= waterLevel r') ∧
        (0%nat ∉ hourDonors w → 0%nat ∉ hourNeedy w → r' = mkRegion 20 10 30).
Proof.
  intros w cm.
  apply (hour_moves_water_one_way cm w 0%nat (mkRegion 20 10 30)).
  reflexivity.
Defined.

(** X8.  During an hour no water source gains water. *)
Theorem sources_only_lose (cm : gmap nat (gmap nat (list nat))) (w : World) :
  Forall2 (λ s s', sourceLevel s' <= sourceLevel s)
    (sources w) (sources (h_world (runHour cm w))).
Proof.
  destruct (runHour_evolves cm w) as [((_ & _ & Hlen) & _ & _ & Hs) _].
  apply Forall2_same_length_lookup. split; [done|].
  intros j s s' H1 H2. by apply (Hs j).
Qed.

(** ** The canals at the end of an hour (lines 67-70, 114-115) *)

Lemma resetCanal_closed c : isOpen (resetCanal c) = false ∧ flowRate (resetCanal c) = 0.
Proof. unfold resetCanal. destruct (isOpen c) eqn:E; simpl; by rewrite ?E. Qed.

(** X9.  At the end of an hour, whatever the canal index, a canal on which
    the hour executed no transfer is closed with flow rate 0, and a canal
    on which it executed one is open, its flow rate being the amount of
    the last transfer of the hour on this canal, divided by 3600. *)
Theorem canal_state_after_hour (cm : gmap nat (gmap nat (list nat))) (w : World)
    (i : nat) (c : Canal) :
  let h := runHour cm w in
  canals (h_world h) !! i = Some c →
  ((i ∉ (t_canal <$> h_log h)) ∧ isOpen c = false ∧ flowRate c = 0) ∨
  (isOpen c = true ∧
   ∃ l1 e l2, h_log h = l1 ++ e :: l2 ∧ t_canal e = i ∧
              (i ∉ (t_canal <$> l2)) ∧ flowRate c = t_amount e / 3600).
Proof.
  intros h. subst h. revert i c.
  apply (runHour_inv
           (λ w' _ l, ∀ i c, canals w' !! i = Some c →
              ((i ∉ (t_canal <$> l)) ∧ isOpen c = false ∧ flowRate c = 0) ∨
              (isOpen c = true ∧
               ∃ l1 e l2, l = l1 ++ e :: l2 ∧ t_canal e = i ∧
                          (i ∉ (t_canal <$> l2)) ∧
                          flowRate c = t_amount e / 3600))).
  - intros target src avail ci s1 s2 _ _ H Ha i c Hc.
    rewrite (attempt_log _ _ _ _ _ _ Ha).
    apply attempt_Some in Ha
      as (cr & wsi & ws & t & Hcr & _ & _ & _ & _ & _ & ->).
    unfold execTransfer in Hc. cbn [sc_world sc_log canals] in *.
    destruct (decide (ci = i)) as [->|Hne].
    + right. rewrite !list_lookup_alter_eq, Hcr in Hc. injection Hc as <-.
      split; [done|]. exists (sc_log s1). eexists. exists [].
      split; [done|]. split; [done|]. split; [|done].
      by intros ?%elem_of_nil.
    + rewrite !list_lookup_alter_ne in Hc by done.
      destruct (H i c Hc) as [(H1 & H2 & H3)|(H1 & l1 & e & l2 & He & H2 & H3 & H4)].
      * left. split; [|done]. intros Hin.
        apply elem_of_app in Hin as [Hin|Hin]; [done|].
        apply list_elem_of_singleton in Hin. done.
      * right. split; [done|]. exists l1, e. eexists (l2 ++ [_]).
        split; [by rewrite He, <- app_assoc|]. split; [done|]. split; [|done].
        rewrite fmap_app. intros Hin.
        apply elem_of_app in Hin as [Hin|Hin]; [done|].
        apply list_elem_of_singleton in Hin. done.
  - intros i c Hc. left. cbn [resetCanals canals] in Hc.
    rewrite list_lookup_fmap in Hc.
    destruct (canals w !! i) as [c0|]; [|done]. injection Hc as <-.
    split; [by intros ?%elem_of_nil|apply resetCanal_closed].
Qed.

Lemma canal_state_after_hour_witness :
  let w := simpleWorld in
  let h := runHour (buildCanalMap (canals w)) w in
  ∃ c, canals (h_world h) !! 0%nat = Some c ∧
    (((0%nat ∉ (t_canal <$> h_log h)) ∧ isOpen c = false ∧ flowRate c = 0) ∨
     (isOpen c = true ∧
      ∃ l1 e l2, h_log h = l1 ++ e :: l2 ∧ t_canal e = 0%nat ∧
                 (0%nat ∉ (t_canal <$> l2)) ∧ flowRate c = t_amount e / 3600)).
Proof.
  intros w h.
  assert (∃ c, canals (h_world h) !! 0%nat = Some c) as [c Hc]
    by (eexists; vm_compute; reflexivity).
  exists c. split; [exact Hc|].
  exact (canal_state_after_hour (buildCanalMap (canals w)) w 0%nat c Hc).
Defined.

(** ** Invariants kept by whole scans of the donors *)

Lemma greedyLoop_inv_scan cm (J : World → bool → list Transfer → Prop) donors fuel : ∀ h,
  (∀ target s,
     target ∈ region <$> h_needs h →
     J (sc_world s) (sc_did s) (sc_log s) →
     J (sc_world (donorLoop cm target donors s))
       (sc_did (donorLoop cm target donors s))
       (sc_log (donorLoop cm target donors s))) →
  J (h_world h) (h_didTransfer h) (h_log h) →
  J (h_world (greedyLoop fuel cm donors h))
    (h_didTransfer (greedyLoop fuel cm donors h))
    (h_log (greedyLoop fuel cm donors h)).
Proof.
  induction fuel as [|fuel IH]; intros h Hstep Hh; simpl; [done|].
  destruct (greedyIter cm donors h) as [h'|] eqn:E; [|done].
  apply IH.
  - intros target s Ht. apply Hstep. by apply (greedyIter_needs _ _ _ _ E).
  - apply greedyIter_Some in E as (curr & rest & s & Hpop & _ & _ & -> & ->).
    cbn [h_world h_didTransfer h_log].
    apply (Hstep (region curr)
             (mkScan (h_world h) (amount curr) (h_didTransfer h) (h_log h)));
      [|done].
    apply pq_pop_perm in Hpop. rewrite Hpop, fmap_cons. by left.
Qed.

Lemma runHour_inv_scan cm (J : World → bool → list Transfer → Prop) w :
  (∀ target s,
     target ∈ hourNeedy w →
     J (sc_world s) (sc_did s) (sc_log s) →
     J (sc_world (donorLoop cm target (hourDonors w) s))
       (sc_did (donorLoop cm target (hourDonors w) s))
       (sc_log (donorLoop cm target (hourDonors w) s))) →
  J (resetCanals w) false [] →
  J (h_world (runHour cm w)) (h_didTransfer (runHour cm w)) (h_log (runHour cm w)).
Proof. intros Hstep H0. unfold runHour. by apply greedyLoop_inv_scan. Qed.

(** ** Water moves only along canals (lines 100-104) *)

Lemma donorLoop_along cm w target :
  goodMap cm w → target ∈ hourNeedy w →
  ∀ donors s,
    donors ⊆ hourDonors w →
    sameFrame w (sc_world s) ∧ Forall (alongCanal w) (sc_log s) →
    sameFrame w (sc_world (donorLoop cm target donors s)) ∧
    Forall (alongCanal w) (sc_log (donorLoop cm target donors s)).
Proof.
  intros Hg Ht.
  induction donors as [|src donors IH]; intros s Hsub Hs; simpl; [done|].
  assert (src ∈ hourDonors w) as Hsrc by (apply Hsub; by left).
  assert (donors ⊆ hourDonors w) as Hsub'.
  { intros x Hx. apply Hsub. by right. }
  destruct (regions (sc_world s) !! src) as [r|]; [|by apply IH].
  destruct (Qleb (safeSurplus r) kEpsilon); [by apply IH|].
  destruct (findBucket cm src target) as [bucket|] eqn:Hb; [|by apply IH].
  destruct (Hg _ _ _ Hb) as [_ Hin].
  assert (sameFrame w (sc_world (canalLoop target src (safeSurplus r) bucket s)) ∧
          Forall (alongCanal w)
            (sc_log (canalLoop target src (safeSurplus r) bucket s))) as H.
  { apply (canalLoop_inv
             (λ s', sameFrame w (sc_world s') ∧ Forall (alongCanal w) (sc_log s')));
      [|done].
    intros c s1 s2 Hc [Hf Hl] Ha.
    destruct (Hin _ Hc) as (c0 & Hc0 & Hs0 & Hd0).
    split; [eapply sameFrame_trans; [done|]; by eapply attempt_frame|].
    apply attempt_Some in Ha
      as (cr & wsi & ws & t & Hcr & Hw & _ & _ & _ & _ & ->).
    destruct (sameFrame_canal _ _ _ _ Hf Hc0) as (c' & Hc' & _ & _ & Hw').
    rewrite Hcr in Hc'. injection Hc' as <-.
    cbn [sc_log]. apply Forall_app. split; [done|].
    apply Forall_singleton. exists c0.
    cbn [t_canal t_src t_target t_source].
    repeat split; try done. congruence. }
  destruct (Qleb _ kEpsilon); [done|]. by apply IH.
Qed.

(** X10.  In an hour run with the index of the canals of the world, every
    transfer goes along a canal whose source region is the donor, whose
    destination region is the target and whose water source is the one
    drawn from; the donor is a donor of the hour and the target a region
    queued in it. *)
Theorem transfers_follow_canals (w : World) :
  Forall (alongCanal w) (h_log (runHour (buildCanalMap (canals w)) w)).
Proof.
  apply (runHour_inv_scan _
           (λ w' _ l, sameFrame w w' ∧ Forall (alongCanal w) l)).
  - intros target s Ht H.
    apply (donorLoop_along _ _ _ (buildCanalMap_good w) Ht); done.
  - split; [apply resetCanals_frame|constructor].
Qed.

(** ** The water of an hour adds up (lines 116-118) *)





(** ** The driver loop (lines 63, 134-136) *)

(** X16.  When the manager is solved on entry, or its hour budget is spent, the
    invocation runs no hour and leaves the manager as it is. *)
Theorem nothing_to_solve (solved : AcequiaManager → bool) (m : AcequiaManager) :
  solved m = true ∨ (SimulationMax m <= hour m)%Z →
  solveRun solved m = (m, []).
Proof.
  intros H. unfold solveRun.
  destruct (Z.to_nat (SimulationMax m - hour m)) as [|fuel]; [done|].
  cbn [solveLoop]. unfold solveIter.
  destruct H as [->|H]; [done|].
  assert ((hour m <? SimulationMax m)%Z = false) as -> by (apply Z.ltb_ge; lia).
  by rewrite andb_false_r.
Qed.

Lemma nothing_to_solve_witness :
  solveRun (λ _, true) (mkManager simpleWorld 0 5) = (mkManager simpleWorld 0 5, []).
Proof.
  apply (nothing_to_solve (λ _, true) (mkManager simpleWorld 0 5)).
  left. reflexivity.
Defined.

Lemma solveLoop_hours solved maxHours cm fuel : ∀ m hist,
  ∃ new,
    (solveLoop solved fuel maxHours cm m hist).2 = hist ++ new ∧
    hour (solveLoop solved fuel maxHours cm m hist).1
    = (hour m + Z.of_nat (length (List.filter productive new)))%Z ∧
    (Z.of_nat (length new) <= Z.max 0 (maxHours - hour m))%Z ∧
    Forall (λ l, productive l = true) (take (length new - 1) new).
Proof.
  induction fuel as [|fuel IH]; intros m hist; simpl.
  - exists []. rewrite app_nil_r. simpl. repeat split; [lia..|constructor].
  - unfold solveIter.
    destruct (negb (solved m) && (hour m <? maxHours)%Z) eqn:G; simpl.
    + apply andb_true_iff in G as [_ G]. apply Z.ltb_lt in G.
      destruct (h_didTransfer (runHour cm (world m))) eqn:D; simpl.
      * destruct (IH (nexthour (mkManager (h_world (runHour cm (world m)))
                                  (hour m) (SimulationMax m)))
                    (hist ++ [h_log (runHour cm (world m))]))
          as (new & -> & Hh & Hl & Hp).
        simpl in Hh, Hl.
        assert (productive (h_log (runHour cm (world m))) = true) as Hprod.
        { destruct (h_log (runHour cm (world m))) eqn:E; [|done].
          apply runHour_didTransfer in E. congruence. }
        exists (h_log (runHour cm (world m)) :: new).
        rewrite <- app_assoc. simpl. rewrite Hprod. simpl.
        split; [done|]. split; [lia|]. split; [lia|].
        rewrite Nat.sub_0_r. destruct new as [|l new]; [constructor|].
        simpl in *. rewrite Nat.sub_0_r in Hp. by constructor.
      * exists [h_log (runHour cm (world m))].
        apply runHour_didTransfer in D. rewrite D. simpl.
        repeat split; [lia..|constructor].
    + exists []. rewrite app_nil_r. simpl. repeat split; [lia..|constructor].
Qed.

(** X17.  An invocation advances the hour counter by the number of hours that
    executed a transfer, runs no more hours than the budget leaves, and
    only its last hour can be one without a transfer. *)
Theorem hours_of_an_invocation (solved : AcequiaManager → bool) (m : AcequiaManager) :
  let r := solveRun solved m in
  hour r.1 = (hour m + Z.of_nat (length (List.filter productive r.2)))%Z ∧
  (Z.of_nat (length r.2) <= Z.max 0 (SimulationMax m - hour m))%Z ∧
  (hour r.1 <= Z.max (hour m) (SimulationMax m))%Z ∧
  Forall (λ l, productive l = true) (take (length r.2 - 1) r.2).
Proof.
  intros r. subst r. unfold solveRun.
  destruct (solveLoop_hours solved (SimulationMax m)
              (buildCanalMap (canals (world m)))
              (Z.to_nat (SimulationMax m - hour m)) m [])
    as (new & E & Hh & Hl & Hp).
  simpl in E. rewrite E, Hh.
  repeat split; [done| |done].
  pose proof (List.filter_length_le productive new) as Hf.
  assert (length (List.filter productive new) ≤ length new)%nat by exact Hf. lia.
Qed.

(** ** Looking up the canal index (lines 57-60, 101-102) *)

Lemma canalMap_add_find cm i c src target :
  findBucket (canalMap_add cm i c) src target
  = if decide (sourceRegion c = src ∧ destinationRegion c = target)
    then Some (default [] (findBucket cm src target) ++ [i])
    else findBucket cm src target.
Proof.
  unfold findBucket, canalMap_add.
  destruct (decide (sourceRegion c = src)) as [<-|Hs].
  - rewrite lookup_insert_eq. simpl.
    destruct (decide (destinationRegion c = target)) as [<-|Ht].
    + rewrite lookup_insert_eq. by rewrite decide_True.
    + rewrite lookup_insert_ne by done. by rewrite decide_False by tauto.
  - rewrite lookup_insert_ne by done. by rewrite decide_False by tauto.
Qed.

Lemma canalMap_from_find cs src target : ∀ i cm,
  findBucket (canalMap_from i cs cm) src target
  = match bucketOf i cs src target with
    | [] => findBucket cm src target
    | b => Some (default [] (findBucket cm src target) ++ b)
    end.
Proof.
  induction cs as [|c cs IH]; intros i cm; simpl; [done|].
  rewrite IH, canalMap_add_find.
  destruct (decide _) as [H|H]; [|done].
  destruct (bucketOf (S i) cs src target) as [|a b]; simpl; [done|].
  by rewrite <- app_assoc.
Qed.

Lemma bucketOf_complete cs src target : ∀ i k c,
  cs !! k = Some c → sourceRegion c = src → destinationRegion c = target →
  (i + k)%nat ∈ bucketOf i cs src target.
Proof.
  induction cs as [|c0 cs IH]; intros i k c Hk Hs Ht; [done|].
  destruct k as [|k]; simpl in *.
  - injection Hk as ->. rewrite decide_True by done.
    rewrite Nat.add_0_r. by left.
  - replace (i + S k)%nat with (S i + k)%nat by lia.
    destruct (decide _); [right|]; by eapply IH.
Qed.

Lemma bucketOf_sorted cs src target : ∀ i, StronglySorted lt (bucketOf i cs src target).
Proof.
  induction cs as [|c cs IH]; intros i; simpl; [constructor|].
  destruct (decide _); [|done].
  constructor; [done|]. apply Forall_forall. intros x Hx.
  apply bucketOf_spec in Hx as [Hx _]. lia.
Qed.

(** X18.  The lookup of the index built from a list of canals, at a pair of
    regions.  When it succeeds the bucket is not empty, lists canals in
    increasing order of index, and holds exactly the canals that join the
    first region to the second, whether or not they have a water source.
    It fails exactly when no canal joins them. *)
Theorem canal_index_lookup (cs : list Canal) (src target : nat) :
  match findBucket (buildCanalMap cs) src target with
  | Some bucket =>
      bucket ≠ [] ∧ StronglySorted lt bucket ∧
      ∀ i, i ∈ bucket ↔
           ∃ c, cs !! i = Some c ∧ sourceRegion c = src ∧ destinationRegion c = target
  | None =>
      ∀ i c, cs !! i = Some c →
             ¬ (sourceRegion c = src ∧ destinationRegion c = target)
  end.
Proof.
  unfold buildCanalMap. rewrite canalMap_from_find.
  assert (findBucket ∅ src target = None) as ->.
  { unfold findBucket. rewrite lookup_empty. simpl. apply lookup_empty. }
  simpl.
  pose proof (bucketOf_sorted cs src target 0) as Hsorted.
  pose proof (bucketOf_spec cs src target 0) as Hspec.
  pose proof (bucketOf_complete cs src target 0) as Hcomp.
  destruct (bucketOf 0 cs src target) as [|a b] eqn:E.
  - intros i c Hc [Hs Ht]. specialize (Hcomp i c Hc Hs Ht).
    by apply elem_of_nil in Hcomp.
  - split; [done|]. split; [done|]. intros i. split.
    + intros Hi. apply Hspec in Hi as (_ & c & Hc & ?).
      rewrite Nat.sub_0_r in Hc. by exists c.
    + intros (c & Hc & Hs & Ht). by apply (Hcomp i c).
Qed.

(** ** The order of the needs (line 48) *)

(** X20.  [operator<] of [Need] is a strict weak order, as the priority queue
    requires: irreflexive, transitive, and with a transitive
    incomparability (equal amounts). *)
Theorem need_lt_strict_weak_order (a b c : Need) :
  need_lt a a = false ∧
  (need_lt a b = true → need_lt b c = true → need_lt a c = true) ∧
  (need_lt a b = false → need_lt b a = false →
   need_lt b c = false → need_lt c b = false →
   need_lt a c = false ∧ need_lt c a = false).
Proof.
  split; [|split].
  - apply need_lt_false. lra.
  - rewrite !need_lt_true. lra.
  - rewrite !need_lt_false. intros. split; lra.
Qed.

Lemma need_lt_strict_weak_order_witness :
  let a := mkNeed 0 5 in
  let b := mkNeed 1 7 in
  let c := mkNeed 2 10 in
  need_lt a c = true.
Proof.
  intros a b c.
  apply (proj1 (proj2 (need_lt_strict_weak_order a b c))); reflexivity.
Defined.

(** * One scan of the donors uses a canal at most once

    A scan of the donors for one popped need (lines 96-125) visits the
    bucket of every donor once and every canal of a bucket once, and no
    canal is in two buckets: it executes at most one transfer on a canal.
    This is a matter of the loops alone; it holds for the exact embedding
    and for the binary64 one.  Between two scans of the same hour only
    the exhaustion of the donor, of the water source or of the room of
    the target keeps a used canal from carrying water again, and in
    binary64 the donor can be left with a residue above the threshold
    ([canal_used_twice_in_an_hour]). *)

Lemma scanned_NoDup cm target donors :
  disjointBuckets cm → NoDup donors → NoDup (scanned cm target donors).
Proof.
  intros [Hnd Hdis]. unfold scanned.
  induction donors as [|src donors IH]; intros Hd; simpl; [constructor|].
  apply NoDup_cons in Hd as [Hsrc Hd].
  apply NoDup_app. split; [|split; [|by apply IH]].
  - destruct (findBucket cm src target) as [b|] eqn:E; simpl; [|constructor].
    by eapply Hnd.
  - intros ci Hci Hin.
    destruct (findBucket cm src target) as [b|] eqn:E; simpl in Hci;
      [|by apply elem_of_nil in Hci].
    apply list_elem_of_join in Hin as (b' & Hin & Hb').
    apply list_elem_of_fmap in Hb' as (src' & -> & Hsrc').
    destruct (findBucket cm src' target) as [b'|] eqn:E'; simpl in Hin;
      [|by apply elem_of_nil in Hin].
    assert (src = src') as <- by (by eapply Hdis). done.
Qed.

Lemma buildCanalMap_disjoint cs : disjointBuckets (buildCanalMap cs).
Proof.
  pose proof (buildCanalMap_good (mkWorld [] [] cs)) as Hg. cbn [canals] in Hg.
  split.
  - intros src target bucket H. by destruct (Hg _ _ _ H).
  - intros src src' target b b' ci H H' Hci Hci'.
    destruct (Hg _ _ _ H) as [_ Hb]. destruct (Hg _ _ _ H') as [_ Hb'].
    destruct (Hb _ Hci) as (c & Hc & Hs & _).
    destruct (Hb' _ Hci') as (c' & Hc' & Hs' & _).
    cbn [canals] in Hc, Hc'. congruence.
Qed.

Lemma hourDonors_NoDup w : NoDup (hourDonors w).
Proof.
  apply sorted_lt_NoDup.
  apply (partitionFrom_sorted (regions w) 0 [] []); try constructor.
  - intros n Hn. by apply elem_of_nil in Hn.
  - intros d Hd. by apply elem_of_nil in Hd.
Qed.

Lemma canalLoop_sublist target src avail bucket : ∀ s,
  ∃ new, sc_log (canalLoop target src avail bucket s) = sc_log s ++ new ∧
         t_canal <$> new `sublist_of` bucket.
Proof.
  induction bucket as [|c bucket IH]; intros s; simpl.
  - exists []. by rewrite app_nil_r.
  - destruct (attempt target src avail c s) as [s'|] eqn:Ha.
    + assert (∃ e, sc_log s' = sc_log s ++ [e] ∧ t_canal e = c) as (e & He & Hc).
      { apply attempt_Some in Ha
          as (? & ? & ? & ? & _ & _ & _ & _ & _ & _ & ->). by eexists. }
      destruct (Qleb (sc_deficit s') kEpsilon).
      * exists [e]. split; [done|]. simpl. rewrite Hc.
        apply sublist_skip, sublist_nil_l.
      * destruct (IH s') as (new & Hl & Hs).
        exists (e :: new). split.
        -- by rewrite Hl, He, <- app_assoc.
        -- simpl. rewrite Hc. by apply sublist_skip.
    + destruct (IH s) as (new & Hl & Hs). exists new.
      split; [done|]. by apply sublist_cons.
Qed.

Lemma donorLoop_sublist cm target donors : ∀ s,
  ∃ new, sc_log (donorLoop cm target donors s) = sc_log s ++ new ∧
         t_canal <$> new `sublist_of` scanned cm target donors.
Proof.
  unfold scanned.
  induction donors as [|src donors IH]; intros s; simpl.
  - exists []. by rewrite app_nil_r.
  - assert (∃ new, sc_log (donorLoop cm target donors s) = sc_log s ++ new ∧
              t_canal <$> new `sublist_of`
                default [] (findBucket cm src target) ++
                mjoin ((λ src0, default [] (findBucket cm src0 target)) <$> donors))
      as Hskip.
    { destruct (IH s) as (new & Hl & Hs). exists new.
      split; [done|]. by apply sublist_inserts_l. }
    destruct (regions (sc_world s) !! src) as [r|]; [|done].
    destruct (Qleb (safeSurplus r) kEpsilon); [done|].
    destruct (findBucket cm src target) as [bucket|]; [|done]. simpl.
    destruct (canalLoop_sublist target src (safeSurplus r) bucket s)
      as (new1 & Hl1 & Hs1).
    destruct (Qleb _ kEpsilon).
    + exists new1. split; [done|]. by apply sublist_inserts_r.
    + destruct (IH (canalLoop target src (safeSurplus r) bucket s))
        as (new2 & Hl2 & Hs2).
      exists (new1 ++ new2). split.
      * by rewrite Hl2, Hl1, <- app_assoc.
      * rewrite fmap_app. by apply sublist_app.
Qed.

Section Binary64Facts.

Import Binary64.

Lemma b64_canalMap_add_bucket cm i c src target :
  default [] (findBucket (canalMap_add cm i c) src target)
  = default [] (findBucket cm src target)
    ++ (if decide (sourceRegion c = src ∧ destinationRegion c = target)
        then [i] else []).
Proof.
  unfold findBucket, canalMap_add.
  destruct (decide (sourceRegion c = src)) as [<-|Hs].
  - rewrite lookup_insert_eq. simpl.
    destruct (decide (destinationRegion c = target)) as [<-|Ht].
    + rewrite lookup_insert_eq. simpl.
      rewrite decide_True by done. done.
    + rewrite lookup_insert_ne by done.
      rewrite decide_False by tauto. by rewrite app_nil_r.
  - rewrite lookup_insert_ne by done.
    rewrite decide_False by tauto. by rewrite app_nil_r.
Qed.

Lemma b64_canalMap_from_bucket cs src target : ∀ i cm,
  default [] (findBucket (canalMap_from i cs cm) src target)
  = default [] (findBucket cm src target) ++ bucketOf i cs src target.
Proof.
  induction cs as [|c cs IH]; intros i cm; simpl.
  - by rewrite app_nil_r.
  - rewrite IH, b64_canalMap_add_bucket, <- app_assoc.
    by destruct (decide _).
Qed.

Lemma b64_bucketOf_spec cs src target : ∀ i ci,
  ci ∈ bucketOf i cs src target →
  (i ≤ ci)%nat ∧
  ∃ c, cs !! (ci - i)%nat = Some c ∧ sourceRegion c = src ∧ destinationRegion c = target.
Proof.
  induction cs as [|c cs IH]; intros i ci H; simpl in H.
  - by apply elem_of_nil in H.
  - destruct (decide _) as [[Hs Ht]|_].
    + apply elem_of_cons in H as [->|H].
      * split; [lia|]. exists c. by rewrite Nat.sub_diag.
      * apply IH in H as (Hle & c' & Hc & ?). split; [lia|].
        exists c'. split; [|done].
        replace (ci - i)%nat with (S (ci - S i)) by lia. done.
    + apply IH in H as (Hle & c' & Hc & ?). split; [lia|].
      exists c'. split; [|done].
      replace (ci - i)%nat with (S (ci - S i)) by lia. done.
Qed.

Lemma b64_bucketOf_NoDup cs src target : ∀ i, NoDup (bucketOf i cs src target).
Proof.
  induction cs as [|c cs IH]; intros i; simpl; [constructor|].
  destruct (decide _); [|done].
  constructor; [|done].
  intros H. apply b64_bucketOf_spec in H as [H _]. lia.
Qed.

Lemma b64_buildCanalMap_disjoint cs : disjointBuckets (buildCanalMap cs).
Proof.
  assert (∀ src target bucket,
            findBucket (buildCanalMap cs) src target = Some bucket →
            bucket = bucketOf 0 cs src target) as Hb.
  { intros src target bucket H.
    pose proof (b64_canalMap_from_bucket cs src target 0 ∅) as E.
    fold (buildCanalMap cs) in E. rewrite H in E.
    unfold findBucket in E. rewrite lookup_empty in E. simpl in E.
    by rewrite lookup_empty in E. }
  split.
  - intros src target bucket H. rewrite (Hb _ _ _ H). apply b64_bucketOf_NoDup.
  - intros src src' target b b' ci H H' Hci Hci'.
    rewrite (Hb _ _ _ H) in Hci. rewrite (Hb _ _ _ H') in Hci'.
    apply b64_bucketOf_spec in Hci as (_ & c & Hc & Hs & _).
    apply b64_bucketOf_spec in Hci' as (_ & c' & Hc' & Hs' & _).
    congruence.
Qed.

Lemma b64_partitionFrom_donors rs : ∀ i needs donors,
  (∀ d, d ∈ donors → (d < i)%nat) → NoDup donors →
  NoDup (partitionFrom i rs needs donors).2.
Proof.
  induction rs as [|r rs IH]; intros i needs donors Hlt Hnd; simpl; [done|].
  destruct (PrimFloat.ltb kEpsilon (getDeficit r));
    [|destruct (PrimFloat.ltb kEpsilon (safeSurplus r))].
  - apply IH; [|done]. intros d Hd. apply Hlt in Hd. lia.
  - apply IH.
    + intros d Hd. apply elem_of_app in Hd as [Hd|Hd].
      * apply Hlt in Hd. lia.
      * apply list_elem_of_singleton in Hd. lia.
    + apply NoDup_app. split; [done|]. split; [|apply NoDup_singleton].
      intros d Hd Hd'. apply list_elem_of_singleton in Hd'. subst d.
      apply Hlt in Hd. lia.
  - apply IH; [|done]. intros d Hd. apply Hlt in Hd. lia.
Qed.

Lemma b64_hourDonors_NoDup w : NoDup (hourDonors w).
Proof.
  apply b64_partitionFrom_donors; [|constructor].
  intros d Hd. by apply elem_of_nil in Hd.
Qed.

Lemma b64_attempt_log target src avail c s s' :
  attempt target src avail c s = Some s' →
  ∃ e, sc_log s' = sc_log s ++ [e] ∧ t_canal e = c.
Proof.
  unfold attempt. intros H.
  destruct (canals (sc_world s) !! c) as [cr|]; [|done].
  simpl in H. destruct (waterSource cr) as [wsi|]; [|done].
  simpl in H. destruct (sources (sc_world s) !! wsi) as [ws|]; [|done].
  simpl in H. destruct (PrimFloat.leb (sourceLevel ws) kEpsilon); [done|].
  destruct (regions (sc_world s) !! target) as [t|]; [|done].
  simpl in H. destruct (PrimFloat.leb _ kEpsilon) in H; [done|].
  injection H as <-. by eexists.
Qed.

Lemma b64_canalLoop_sublist target src avail bucket : ∀ s,
  ∃ new, sc_log (canalLoop target src avail bucket s) = sc_log s ++ new ∧
         t_canal <$> new `sublist_of` bucket.
Proof.
  induction bucket as [|c bucket IH]; intros s; simpl.
  - exists []. by rewrite app_nil_r.
  - destruct (attempt target src avail c s) as [s'|] eqn:Ha.
    + apply b64_attempt_log in Ha as (e & He & Hc).
      destruct (PrimFloat.leb (sc_deficit s') kEpsilon).
      * exists [e]. split; [done|]. simpl. rewrite Hc.
        apply sublist_skip, sublist_nil_l.
      * destruct (IH s') as (new & Hl & Hs).
        exists (e :: new). split.
        -- by rewrite Hl, He, <- app_assoc.
        -- simpl. rewrite Hc. by apply sublist_skip.
    + destruct (IH s) as (new & Hl & Hs). exists new.
      split; [done|]. by apply sublist_cons.
Qed.

Lemma b64_donorLoop_sublist cm target donors : ∀ s,
  ∃ new, sc_log (donorLoop cm target donors s) = sc_log s ++ new ∧
         t_canal <$> new `sublist_of` scanned cm target donors.
Proof.
  unfold scanned.
  induction donors as [|src donors IH]; intros s; simpl.
  - exists []. by rewrite app_nil_r.
  - assert (∃ new, sc_log (donorLoop cm target donors s) = sc_log s ++ new ∧
              t_canal <$> new `sublist_of`
                default [] (findBucket cm src target) ++
                mjoin ((λ src0, default [] (findBucket cm src0 target)) <$> donors))
      as Hskip.
    { destruct (IH s) as (new & Hl & Hs). exists new.
      split; [done|]. by apply sublist_inserts_l. }
    destruct (regions (sc_world s) !! src) as [r|]; [|done].
    destruct (PrimFloat.leb (safeSurplus r) kEpsilon); [done|].
    destruct (findBucket cm src target) as [bucket|]; [|done]. simpl.
    destruct (b64_canalLoop_sublist target src (safeSurplus r) bucket s)
      as (new1 & Hl1 & Hs1).
    destruct (PrimFloat.leb _ kEpsilon).
    + exists new1. split; [done|]. by apply sublist_inserts_r.
    + destruct (IH (canalLoop target src (safeSurplus r) bucket s))
        as (new2 & Hl2 & Hs2).
      exists (new1 ++ new2). split.
      * by rewrite Hl2, Hl1, <- app_assoc.
      * rewrite fmap_app. by apply sublist_app.
Qed.

End Binary64Facts.

Section Binary64Residue.

Import PrimFloat.

(** C9 as stated fails in the arithmetic of the code.  In
    [Binary64.residueWorld] the safe surplus of the donor is computed as
    18000000000000.8984375; after the donor has given it, its safe surplus
    is computed as 0.00146484375, which is above the threshold, and the
    next iteration of the greedy loop of the same hour sends it along the
    same canal: canal 0 carries two transfers between two resets. *)
Lemma canal_used_twice_in_an_hour :
  let w := Binary64.residueWorld in
  let h := Binary64.runHour (Binary64.buildCanalMap (Binary64.canals w)) w in
  ∃ e1 e2,
    Binary64.h_log h = [e1; e2] ∧
    Binary64.t_canal e1 = 0%nat ∧ Binary64.t_canal e2 = 0%nat ∧
    Binary64.t_amount e1 = 18000000000000.8984375%float ∧
    Binary64.t_amount e2 = 0.00146484375%float ∧
    ¬ NoDup (Binary64.t_canal <$> Binary64.h_log h).
Proof.
  intros w h. vm_compute in h. subst h. cbn [Binary64.h_log].
  do 2 eexists. repeat split.
  cbn [fmap list_fmap Binary64.t_canal]. intros H.
  apply NoDup_cons in H as [H _]. apply H. by left.
Qed.

End Binary64Residue.

(** C9, amended.  One scan of the donors for a popped need, which is the
    body of one iteration of the greedy loop, executes its transfers on
    pairwise distinct canals: within a scan [setFlowRate] is called with a
    transfer amount at most once on each canal.  This holds with the index
    of the canals of any world and the donors of any hour, from any state
    of the scan, for the exact embedding and for the binary64 one. *)
Theorem canal_once_per_scan :
  (∀ (w w' : World) (target : nat) (s : Scan),
     ∃ new,
       sc_log (donorLoop (buildCanalMap (canals w)) target (hourDonors w') s)
       = sc_log s ++ new ∧
       NoDup (t_canal <$> new)) ∧
  (∀ (w w' : Binary64.World) (target : nat) (s : Binary64.Scan),
     ∃ new,
       Binary64.sc_log
         (Binary64.donorLoop (Binary64.buildCanalMap (Binary64.canals w)) target
            (Binary64.hourDonors w') s)
       = Binary64.sc_log s ++ new ∧
       NoDup (Binary64.t_canal <$> new)).
Proof.
  split.
  - intros w w' target s.
    destruct (donorLoop_sublist (buildCanalMap (canals w)) target (hourDonors w') s)
      as (new & Hl & Hs).
    exists new. split; [done|].
    eapply sublist_NoDup; [|done].
    apply scanned_NoDup; [apply buildCanalMap_disjoint|apply hourDonors_NoDup].
  - intros w w' target s.
    destruct (b64_donorLoop_sublist (Binary64.buildCanalMap (Binary64.canals w))
                target (Binary64.hourDonors w') s) as (new & Hl & Hs).
    exists new. split; [done|].
    eapply sublist_NoDup; [|done].
    apply scanned_NoDup; [apply b64_buildCanalMap_disjoint|apply b64_hourDonors_NoDup].
Qed.
